(** * mcp-openfda: the retrieval pipeline of [src/rag-utils.ts] and its
    orchestrator [aePipelineRag] of [src/index.ts], embedded in Rocq.

    Conventions of the embedding.
    - A JavaScript string is the list of its UTF-16 code units ([jsstring]);
      [length] is then [String.prototype.length].  The language bounds a
      string by 2^53 - 1 code units, a list has no bound: a theorem that
      needs the bound states it.
    - Integer-valued numbers (lengths, offsets, [chunkSize], [overlap],
      [topK], [maxLength]) are [Z]; scores are binary64 floats ([float]).
    - What the JavaScript runtime provides and no table here can reproduce
      (Unicode lower-casing, regular expressions built from caller text,
      [Math.log]) is a field of the class [Runtime]; every theorem holds for
      every runtime.
    - Code that can throw returns a [completion]; a loop runs on fuel and
      answers [None] when the fuel is spent before the loop condition fails. *)

From Stdlib Require Import Ascii String.
From Stdlib Require Import ZArith NArith List Bool Lia Floats Permutation.
Import ListNotations.

Open Scope Z_scope.

(* ================================================================== *)
(** ** JavaScript strings *)

Module JS.

Definition jschar := N.
Definition jsstring := list jschar.

(** Code units of a source literal: the file stores literals in UTF-8, the
    program sees them in UTF-16. *)
Fixpoint utf16_of_utf8 (bs : list N) : jsstring :=
  match bs with
  | [] => []
  | b0 :: r =>
      if (b0 <? 128)%N then b0 :: utf16_of_utf8 r
      else if (b0 <? 224)%N then
        match r with
        | b1 :: r1 => ((b0 - 192) * 64 + (b1 - 128))%N :: utf16_of_utf8 r1
        | _ => []
        end
      else if (b0 <? 240)%N then
        match r with
        | b1 :: b2 :: r2 =>
            ((b0 - 224) * 4096 + (b1 - 128) * 64 + (b2 - 128))%N :: utf16_of_utf8 r2
        | _ => []
        end
      else
        match r with
        | b1 :: b2 :: b3 :: r3 =>
            let cp := ((b0 - 240) * 262144 + (b1 - 128) * 4096
                       + (b2 - 128) * 64 + (b3 - 128))%N in
            let v := (cp - 65536)%N in
            (55296 + v / 1024)%N :: (56320 + v mod 1024)%N :: utf16_of_utf8 r3
        | _ => []
        end
  end.

Definition js (s : string) : jsstring :=
  utf16_of_utf8 (map N_of_ascii (list_ascii_of_string s)).

Definition char_eqb (a b : jschar) : bool := N.eqb a b.

Fixpoint str_eqb (a b : jsstring) : bool :=
  match a, b with
  | [], [] => true
  | x :: a', y :: b' => char_eqb x y && str_eqb a' b'
  | _, _ => false
  end.

Definition len {A} (l : list A) : Z := Z.of_nat (length l).

(** [String.prototype.slice] and [Array.prototype.slice] on integer
    arguments: a negative index counts from the end, both ends are clamped
    to the sequence. *)
Definition clamp_index (n i : Z) : Z :=
  if i <? 0 then Z.max (n + i) 0 else Z.min i n.

Definition slice {A} (l : list A) (from to : Z) : list A :=
  let n := len l in
  let f := clamp_index n from in
  let t := clamp_index n to in
  firstn (Z.to_nat (t - f)) (skipn (Z.to_nat f) l).

(** [String.prototype.lastIndexOf] for a one-character needle; -1 when the
    character does not occur. *)
Fixpoint lastIndexOf_from (s : jsstring) (c : jschar) (i : Z) (found : Z) : Z :=
  match s with
  | [] => found
  | x :: r => lastIndexOf_from r c (i + 1) (if char_eqb x c then i else found)
  end.

Definition lastIndexOf (s : jsstring) (c : jschar) : Z :=
  lastIndexOf_from s c 0 (-1).

(** WhiteSpace and LineTerminator code units: what [trim] strips and what
    the class [\s] matches. *)
Definition is_space (c : jschar) : bool :=
  ((9 <=? c) && (c <=? 13) || (c =? 32) || (c =? 160) || (c =? 5760)
   || (8192 <=? c) && (c <=? 8202) || (c =? 8232) || (c =? 8233)
   || (c =? 8239) || (c =? 8287) || (c =? 12288) || (c =? 65279))%N.

Fixpoint trimStart (s : jsstring) : jsstring :=
  match s with
  | [] => []
  | c :: r => if is_space c then trimStart r else s
  end.

Definition trim (s : jsstring) : jsstring :=
  rev (trimStart (rev (trimStart s))).

Fixpoint startsWith (s prefix : jsstring) : bool :=
  match prefix, s with
  | [], _ => true
  | p :: prefix', c :: s' => char_eqb c p && startsWith s' prefix'
  | _ :: _, [] => false
  end.

(** [String.prototype.includes]. *)
Fixpoint includes (s needle : jsstring) : bool :=
  startsWith s needle
  || match s with
     | [] => false
     | _ :: r => includes r needle
     end.

(** [s.split(/\s+/)]: the pieces between maximal runs of white space, the
    empty pieces at either end included. *)
Fixpoint split_ws_from (s : jsstring) (cur : jsstring) (in_ws : bool) : list jsstring :=
  match s with
  | [] => [rev cur]
  | c :: r =>
      if is_space c then
        if in_ws then split_ws_from r cur true
        else rev cur :: split_ws_from r [] true
      else split_ws_from r (c :: cur) false
  end.

Definition split_ws (s : jsstring) : list jsstring := split_ws_from s [] false.

(** [Array.prototype.join]. *)
Fixpoint join (sep : jsstring) (parts : list jsstring) : jsstring :=
  match parts with
  | [] => []
  | [p] => p
  | p :: rest => p ++ sep ++ join sep rest
  end.

(** [s.replace(/\n/g, ' ')]. *)
Definition newlines_to_spaces (s : jsstring) : jsstring :=
  map (fun c => if char_eqb c 10%N then 32%N else c) s.

(** [String(n)] for an integer. *)
Fixpoint digits_of_uint (u : Decimal.uint) : jsstring :=
  match u with
  | Decimal.Nil => []
  | Decimal.D0 r => 48%N :: digits_of_uint r
  | Decimal.D1 r => 49%N :: digits_of_uint r
  | Decimal.D2 r => 50%N :: digits_of_uint r
  | Decimal.D3 r => 51%N :: digits_of_uint r
  | Decimal.D4 r => 52%N :: digits_of_uint r
  | Decimal.D5 r => 53%N :: digits_of_uint r
  | Decimal.D6 r => 54%N :: digits_of_uint r
  | Decimal.D7 r => 55%N :: digits_of_uint r
  | Decimal.D8 r => 56%N :: digits_of_uint r
  | Decimal.D9 r => 57%N :: digits_of_uint r
  end.

Definition decimal (z : Z) : jsstring :=
  match Z.to_int z with
  | Decimal.Pos u => digits_of_uint u
  | Decimal.Neg u => 45%N :: digits_of_uint u
  end.

(** Values a [Record<string, any>] holds in this program. *)
Inductive jsval :=
| JUndefined
| JBool (b : bool)
| JNum (z : Z)
| JStr (s : jsstring).

(** ToBoolean. *)
Definition truthy (v : jsval) : bool :=
  match v with
  | JUndefined => false
  | JBool b => b
  | JNum z => negb (z =? 0)
  | JStr s => match s with [] => false | _ => true end
  end.

(** [a || b] on values. *)
Definition or_else (a b : jsval) : jsval := if truthy a then a else b.

(** A plain object as the list of its own properties in insertion order. *)
Definition object := list (jsstring * jsval).

Fixpoint get_prop (k : jsstring) (o : object) : jsval :=
  match o with
  | [] => JUndefined
  | (k', v) :: r => if str_eqb k k' then v else get_prop k r
  end.

(** Assignment of one property: an existing key keeps its place. *)
Fixpoint set_prop (k : jsstring) (v : jsval) (o : object) : object :=
  match o with
  | [] => [(k, v)]
  | (k', v') :: r => if str_eqb k k' then (k, v) :: r else (k', v') :: set_prop k v r
  end.

(** Number conversion of an integer: the nearest binary64 value. *)
Definition float_of_Z (z : Z) : float :=
  SF2Prim (binary_normalize prec emax z 0 false).

(** Outcome of a call that can throw. *)
Inductive completion (A : Type) :=
| Returns (a : A)
| Throws (message : jsstring).
Arguments Returns {A} a.
Arguments Throws {A} message.

Definition bind {A B} (m : completion A) (k : A -> completion B) : completion B :=
  match m with
  | Returns a => k a
  | Throws e => Throws e
  end.

Fixpoint mapM {A B} (f : A -> completion B) (l : list A) : completion (list B) :=
  match l with
  | [] => Returns []
  | x :: r => bind (f x) (fun y => bind (mapM f r) (fun ys => Returns (y :: ys)))
  end.

End JS.
Import JS.

Notation "x <- m ;; k" := (bind m (fun x => k))
  (at level 61, m at next level, right associativity).

(* ================================================================== *)
(** ** Data model ([TextChunk], [RAGResult]) *)

Record TextChunk := mkChunk {
  id : jsstring;
  text : jsstring;
  source : jsstring;
  metadata : object;
  score : option float
}.

Record Citation := mkCitation {
  cite_id : jsstring;
  cite_title : jsval;
  cite_type : jsval
}.

Record RAGResult := mkRAGResult {
  r_source : jsstring;
  r_query : option jsstring;
  r_drug : option jsstring;
  r_condition : option jsstring;
  top_chunks : list TextChunk;
  summary : jsstring;
  citations : list Citation
}.

(* ================================================================== *)
(** ** chunkText *)

Definition key_chunkIndex : jsstring := Eval vm_compute in js "chunkIndex".
Definition key_start : jsstring := Eval vm_compute in js "start".
Definition key_end : jsstring := Eval vm_compute in js "end".

(** [breakPoint > chunkSize * 0.7], the product taken in binary64 as the
    runtime does; the literal is 0.7 rounded to binary64. *)
Definition above70 (breakPoint chunkSize : Z) : bool :=
  PrimFloat.ltb (PrimFloat.mul (float_of_Z chunkSize) 0x1.6666666666666p-1%float)
                (float_of_Z breakPoint).

(** The last element of the array, [chunks[chunks.length - 1]]. *)
Definition last_chunk (chunks : list TextChunk) : option TextChunk :=
  nth_error chunks (length chunks - 1).

(** One pass of the [while] body at cursor [start]: the chunk pushed and the
    next cursor. *)
Definition chunk_step (text : jsstring) (chunkSize overlap : Z)
    (sourceId : jsstring) (md : object)
    (start chunkIndex : Z) (chunks : list TextChunk) : list TextChunk * Z :=
  let end_ := Z.min (start + chunkSize) (len text) in
  let piece := slice text start end_ in
  let piece :=
    if end_ <? len text then
      let lastPeriod := lastIndexOf piece 46%N in
      let lastNewline := lastIndexOf piece 10%N in
      let breakPoint := Z.max lastPeriod lastNewline in
      if above70 breakPoint chunkSize then slice piece 0 (breakPoint + 1) else piece
    else piece in
  let chunk :=
    {| id := sourceId ++ js "_chunk_" ++ decimal chunkIndex;
       text := trim piece;
       source := sourceId;
       metadata :=
         set_prop key_end (JNum (start + len piece))
           (set_prop key_start (JNum start)
              (set_prop key_chunkIndex (JNum chunkIndex) md));
       score := None |} in
  let chunks := chunks ++ [chunk] in
  let start := start + (len piece - overlap) in
  let start :=
    match last_chunk chunks with
    | Some c =>
        match get_prop key_start (metadata c) with
        | JNum s => if start <=? s then s + chunkSize else start
        | _ => start
        end
    | None => start
    end in
  (chunks, start).

(** The [while (start < text.length)] loop on fuel: [None] when the fuel is
    spent while the condition still holds. *)
Fixpoint chunk_loop (fuel : nat) (text : jsstring) (chunkSize overlap : Z)
    (sourceId : jsstring) (md : object)
    (start chunkIndex : Z) (chunks : list TextChunk) {struct fuel}
  : option (list TextChunk) :=
  if start <? len text then
    match fuel with
    | O => None
    | S fuel' =>
        let '(chunks', start') :=
          chunk_step text chunkSize overlap sourceId md start chunkIndex chunks in
        chunk_loop fuel' text chunkSize overlap sourceId md start' (chunkIndex + 1) chunks'
    end
  else Some chunks.

Definition chunkText (fuel : nat) (text : jsstring) (chunkSize overlap : Z)
    (sourceId : jsstring) (md : object) : option (list TextChunk) :=
  match text with
  | [] => Some []
  | _ => chunk_loop fuel text chunkSize overlap sourceId md 0 0 []
  end.

(** The character span [[start, end)] a chunk records in its metadata. *)
Definition chunk_span (c : TextChunk) : option (Z * Z) :=
  match get_prop key_start (metadata c), get_prop key_end (metadata c) with
  | JNum s, JNum e => Some (s, e)
  | _, _ => None
  end.

(* ================================================================== *)
(** ** The regular expressions written in the source

    The fixed patterns of [rag-utils.ts] are sequences of character classes,
    each taken once or one-or-more times.  In all of them a repeated class is
    disjoint from the class that follows it, so the greedy run below is the
    match a backtracking engine finds. *)

Inductive quantifier := One | Plus.

Record item := mkItem { cls : jschar -> bool; quant : quantifier }.

Fixpoint span_while (f : jschar -> bool) (s : jsstring) : jsstring * jsstring :=
  match s with
  | [] => ([], [])
  | c :: r =>
      if f c then let '(run, rest) := span_while f r in (c :: run, rest)
      else ([], s)
  end.

(** The match of the pattern at the very start of [s], with what follows. *)
Fixpoint match_items (p : list item) (s : jsstring) : option (jsstring * jsstring) :=
  match p with
  | [] => Some ([], s)
  | it :: p' =>
      match quant it with
      | One =>
          match s with
          | c :: r =>
              if cls it c then
                match match_items p' r with
                | Some (m, rest) => Some (c :: m, rest)
                | None => None
                end
              else None
          | [] => None
          end
      | Plus =>
          let '(run, rest) := span_while (cls it) s in
          match run with
          | [] => None
          | _ =>
              match match_items p' rest with
              | Some (m, rest') => Some (run ++ m, rest')
              | None => None
              end
          end
      end
  end.

(** [s.match(/p/g)]: every match, left to right, the search resuming after
    each one; the empty list stands for [null]. *)
Fixpoint match_all_from (p : list item) (s : jsstring) (skip : nat) : list jsstring :=
  match s with
  | [] =>
      match skip, match_items p [] with
      | O, Some (m, _) => [m]
      | _, _ => []
      end
  | _ :: r =>
      match skip with
      | S k => match_all_from p r k
      | O =>
          match match_items p s with
          | Some (m, _) => m :: match_all_from p r (length m - 1)
          | None => match_all_from p r 0
          end
      end
  end.

Definition match_all (p : list item) (s : jsstring) : list jsstring :=
  match_all_from p s 0.

(** [s.match(/p/)]: the first match, if any. *)
Definition match_first (p : list item) (s : jsstring) : option jsstring :=
  match match_all p s with
  | [] => None
  | m :: _ => Some m
  end.

Definition is_digit (c : jschar) : bool := ((48 <=? c) && (c <=? 57))%N.
Definition is_upper (c : jschar) : bool := ((65 <=? c) && (c <=? 90))%N.
Definition lit (x : jschar) : item := mkItem (char_eqb x) One.
(** A letter under the [i] flag: either case of the ASCII letter. *)
Definition lit_i (lower : jschar) : item :=
  mkItem (fun c => char_eqb c lower || char_eqb c (lower - 32)%N) One.

(** [/NCT\d+/] *)
Definition re_NCT : list item :=
  [lit 78%N; lit 67%N; lit 84%N; mkItem is_digit Plus].

(** The rxcui pattern under the [i] flag: the letters r x c u i, one or
    more characters out of double quote, white space and colon, then [(\d+)]. *)
Definition re_rxcui : list item :=
  [lit_i 114%N; lit_i 120%N; lit_i 99%N; lit_i 117%N; lit_i 105%N;
   mkItem (fun c => char_eqb c 34%N || is_space c || char_eqb c 58%N) Plus;
   mkItem is_digit Plus].

(** [/\d+/] *)
Definition re_digits : list item := [mkItem is_digit Plus].

(** [/[A-Z]\d{2}[A-Z]{2}\d{2}/] *)
Definition re_ATC : list item :=
  [mkItem is_upper One; mkItem is_digit One; mkItem is_digit One;
   mkItem is_upper One; mkItem is_upper One; mkItem is_digit One; mkItem is_digit One].

(** A [Set<string>] as the list of its members in insertion order. *)
Definition set_has (s : list jsstring) (x : jsstring) : bool := existsb (str_eqb x) s.
Definition set_add (s : list jsstring) (x : jsstring) : list jsstring :=
  if set_has s x then s else s ++ [x].

(* ================================================================== *)
(** ** What the runtime provides *)

Class Runtime := {
  (** [String.prototype.toLowerCase] *)
  toLowerCase : jsstring -> jsstring;
  (** [(text.match(new RegExp(keyword, 'g')) || []).length], or the
      SyntaxError the constructor throws on a keyword that is no pattern *)
  regexp_match_count : jsstring -> jsstring -> completion nat;
  (** [Math.log] *)
  Math_log : float -> float
}.

Section WithRuntime.
Context {rt : Runtime}.

(* ================================================================== *)
(** ** scoreChunkByQuery *)

(** The [for (const keyword of allKeywords)] loop. *)
Fixpoint keyword_loop (text : jsstring) (allKeywords : list jsstring) (score : float)
  : completion float :=
  match allKeywords with
  | [] => Returns score
  | keyword :: rest =>
      matches <- regexp_match_count keyword text ;;
      let score :=
        if (0 <? matches)%nat then
          PrimFloat.add score
            (PrimFloat.mul (float_of_Z (Z.of_nat matches))
                           (Math_log (float_of_Z (1 + len keyword))))
        else score in
      keyword_loop text rest score
  end.

Definition allKeywords_of (query : jsstring) (extraKeywords : list jsstring) : list jsstring :=
  filter (fun k => 2 <? len k)
         (split_ws (toLowerCase query) ++ map toLowerCase extraKeywords).

Definition scoreChunkByQuery (chunk : TextChunk) (query : jsstring)
    (extraKeywords : list jsstring) : completion float :=
  let text := toLowerCase (text chunk) in
  let queryLower := toLowerCase query in
  let allKeywords := allKeywords_of query extraKeywords in
  score <- keyword_loop text allKeywords 0%float ;;
  let score :=
    if includes text queryLower
    then PrimFloat.add score (float_of_Z (len queryLower * 2))
    else score in
  Returns (PrimFloat.div score (PrimFloat.sqrt (float_of_Z (len text)))).

(* ================================================================== *)
(** ** rankAndPickTop *)

(** [x || 0] on an optional number: 0 for [undefined], NaN and both zeros. *)
Definition or_zero (x : option float) : float :=
  match x with
  | None => 0%float
  | Some v => if PrimFloat.eqb v v && negb (PrimFloat.eqb v 0%float) then v else 0%float
  end.

(** The comparator [(a, b) => (b.score || 0) - (a.score || 0)]. *)
Definition compare_scores (a b : TextChunk) : float :=
  PrimFloat.sub (or_zero (score b)) (or_zero (score a)).

(** [Array.prototype.sort] as a stable insertion sort: an element moves
    behind exactly those the comparator puts strictly before it. *)
Fixpoint insert_by {A} (cmp : A -> A -> float) (x : A) (l : list A) : list A :=
  match l with
  | [] => [x]
  | y :: r =>
      if PrimFloat.ltb 0%float (cmp x y) then y :: insert_by cmp x r
      else x :: l
  end.

Definition sort_by {A} (cmp : A -> A -> float) (l : list A) : list A :=
  fold_right (insert_by cmp) [] l.

(** The object literal [{ ...chunk, score: s }]. *)
Definition with_score (chunk : TextChunk) (s : float) : TextChunk :=
  {| id := id chunk; text := text chunk; source := source chunk;
     metadata := metadata chunk; score := Some s |}.

Definition rankAndPickTop (chunks : list TextChunk) (query : jsstring) (topK : Z)
    (extraKeywords : list jsstring) : completion (list TextChunk) :=
  scoredChunks <-
    mapM (fun chunk =>
            s <- scoreChunkByQuery chunk query extraKeywords ;;
            Returns (with_score chunk s)) chunks ;;
  let scoredChunks := sort_by compare_scores scoredChunks in
  Returns (slice scoredChunks 0 topK).

End WithRuntime.

(* ================================================================== *)
(** ** summarizeChunks and its four generators *)

Record SummaryContext := mkContext {
  ctx_query : option jsstring;
  ctx_drug : option jsstring;
  ctx_condition : option jsstring
}.

Record SummaryOptions := mkOptions {
  opt_source : jsstring;
  opt_query : option jsstring;
  opt_drug : option jsstring;
  opt_condition : option jsstring;
  opt_maxLength : option Z
}.

Definition nl : jsstring := [10%N].

(** Truthiness of an optional string: present and not empty. *)
Definition present (o : option jsstring) : bool :=
  match o with
  | Some (_ :: _) => true
  | _ => false
  end.

(** [a || b] where [a] is an optional string. *)
Definition or_str (a : option jsstring) (b : jsstring) : jsstring :=
  match a with
  | Some (c :: s) => c :: s
  | _ => b
  end.

(** The three [if (drug) ... if (condition) ... if (query) ...] statements
    that follow the title in every generator. *)
Definition context_lines (ctx : SummaryContext) : jsstring :=
  (if present (ctx_drug ctx)
   then js "**药物**: " ++ or_str (ctx_drug ctx) [] ++ nl else [])
  ++ (if present (ctx_condition ctx)
      then js "**适应症**: " ++ or_str (ctx_condition ctx) [] ++ nl else [])
  ++ (if present (ctx_query ctx)
      then js "**查询**: " ++ or_str (ctx_query ctx) [] ++ nl else []).

(** [chunks.slice(0, n).forEach((chunk, idx) => ...)]: the numbered
    previews, each cut at [cap] characters. *)
Fixpoint preview_lines (idx : Z) (cap : Z) (chunks : list TextChunk) : jsstring :=
  match chunks with
  | [] => []
  | chunk :: rest =>
      let preview := newlines_to_spaces (slice (text chunk) 0 cap) in
      decimal (idx + 1) ++ js ". " ++ preview ++ js "..." ++ nl ++ nl
      ++ preview_lines (idx + 1) cap rest
  end.

Definition yes_no (b : bool) : jsstring := if b then js "是" else js "否".

Section Summaries.
Context {rt : Runtime}.

Definition aeKeywords : list jsstring :=
  [js "adverse"; js "side effect"; js "toxicity"; js "safety"; js "不良事件"; js "副作用"].

Definition generateClinicalTrialsSummary (chunks : list TextChunk) (ctx : SummaryContext)
  : jsstring :=
  let summary := js "## 临床试验不良事件分析" ++ nl ++ nl in
  let summary := summary ++ context_lines ctx in
  let summary :=
    summary ++ js "**数据来源**: " ++ decimal (len chunks) ++ js " 个临床试验片段" ++ nl ++ nl in
  let '(adverseEvents, studyIds, hasControlComparison) :=
    fold_left
      (fun '(adverseEvents, studyIds, hasControlComparison) chunk =>
         let studyIds := fold_left set_add (match_all re_NCT (text chunk)) studyIds in
         let hasControlComparison :=
           if includes (toLowerCase (text chunk)) (js "placebo")
              || includes (toLowerCase (text chunk)) (js "control")
           then true else hasControlComparison in
         let adverseEvents :=
           fold_left
             (fun adverseEvents keyword =>
                if includes (toLowerCase (text chunk)) (toLowerCase keyword)
                then set_add adverseEvents keyword else adverseEvents)
             aeKeywords adverseEvents in
         (adverseEvents, studyIds, hasControlComparison))
      chunks ([], [], false) in
  let summary := summary ++ js "### 关键发现" ++ nl in
  let summary := summary ++ js "- 涉及研究数量: " ++ decimal (len studyIds) ++ nl in
  let summary := summary ++ js "- 包含对照组比较: " ++ yes_no hasControlComparison ++ nl in
  let summary :=
    summary ++ js "- 不良事件相关性: " ++ yes_no (0 <? len adverseEvents) ++ nl ++ nl in
  let summary := summary ++ js "### 证据摘要" ++ nl in
  let summary := summary ++ preview_lines 0 200 (slice chunks 0 3) in
  let summary := summary ++ js "### 建议" ++ nl in
  summary ++ js "基于 " ++ decimal (len chunks)
          ++ js " 个相关片段的分析，建议进一步查看具体研究详情以获得完整的安全性评估。".

Record Categories := mkCategories {
  warnings : Z;
  adverseReactions : Z;
  contraindications : Z;
  boxedWarning : Z
}.

Definition generateOpenFDASummary (chunks : list TextChunk) (ctx : SummaryContext)
  : jsstring :=
  let summary := js "## FDA 药物标签安全信息" ++ nl ++ nl in
  let summary := summary ++ context_lines ctx in
  let summary :=
    summary ++ js "**数据来源**: " ++ decimal (len chunks) ++ js " 个 FDA 标签片段" ++ nl ++ nl in
  let categories :=
    fold_left
      (fun categories chunk =>
         let text := toLowerCase (text chunk) in
         let bump (hit : bool) (n : Z) := if hit then n + 1 else n in
         {| warnings :=
              bump (includes text (js "warning") || includes text (js "警告"))
                   (warnings categories);
            adverseReactions :=
              bump (includes text (js "adverse") || includes text (js "不良反应"))
                   (adverseReactions categories);
            contraindications :=
              bump (includes text (js "contraindication") || includes text (js "禁忌"))
                   (contraindications categories);
            boxedWarning :=
              bump (includes text (js "boxed") || includes text (js "黑框"))
                   (boxedWarning categories) |})
      chunks (mkCategories 0 0 0 0) in
  let summary := summary ++ js "### 安全信息分类" ++ nl in
  let summary := summary ++ js "- 警告信息: " ++ decimal (warnings categories) ++ js " 条" ++ nl in
  let summary :=
    summary ++ js "- 不良反应: " ++ decimal (adverseReactions categories) ++ js " 条" ++ nl in
  let summary :=
    summary ++ js "- 禁忌症: " ++ decimal (contraindications categories) ++ js " 条" ++ nl in
  let summary :=
    summary ++ js "- 黑框警告: " ++ decimal (boxedWarning categories) ++ js " 条" ++ nl ++ nl in
  let summary := summary ++ js "### 重要安全信息" ++ nl in
  summary ++ preview_lines 0 200 (slice chunks 0 3).

Definition generateRxNavSummary (chunks : list TextChunk) (ctx : SummaryContext)
  : jsstring :=
  let summary := js "## RxNav 药物术语信息" ++ nl ++ nl in
  let summary := summary ++ context_lines ctx in
  let summary :=
    summary ++ js "**数据来源**: " ++ decimal (len chunks) ++ js " 个 RxNav 术语片段" ++ nl ++ nl in
  let '(rxcuis, atcCodes) :=
    fold_left
      (fun '(rxcuis, atcCodes) chunk =>
         let rxcuis :=
           fold_left
             (fun rxcuis m =>
                match match_first re_digits m with
                | Some id0 => set_add rxcuis id0
                | None => rxcuis
                end)
             (match_all re_rxcui (text chunk)) rxcuis in
         let atcCodes := fold_left set_add (match_all re_ATC (text chunk)) atcCodes in
         (rxcuis, atcCodes))
      chunks ([], []) in
  let summary := summary ++ js "### 术语信息统计" ++ nl in
  let summary := summary ++ js "- RxCUI 标识符: " ++ decimal (len rxcuis) ++ js " 个" ++ nl in
  let summary :=
    summary ++ js "- ATC 分类代码: " ++ decimal (len atcCodes) ++ js " 个" ++ nl ++ nl in
  let summary := summary ++ js "### 药物术语详情" ++ nl in
  summary ++ preview_lines 0 200 (slice chunks 0 3).

Definition generateGenericSummary (chunks : list TextChunk) (ctx : SummaryContext)
  : jsstring :=
  let summary := js "## 信息摘要" ++ nl ++ nl in
  let summary := summary ++ context_lines ctx in
  let summary :=
    summary ++ js "**相关片段**: " ++ decimal (len chunks) ++ js " 个" ++ nl ++ nl in
  let summary := summary ++ js "### 主要内容" ++ nl in
  summary ++ preview_lines 0 150 (slice chunks 0 5).

Definition summarizeChunks (chunks : list TextChunk) (options : SummaryOptions)
  : jsstring :=
  let source := opt_source options in
  let query := opt_query options in
  let drug := opt_drug options in
  let condition := opt_condition options in
  let maxLength := match opt_maxLength options with Some m => m | None => 1200 end in
  match chunks with
  | [] =>
      js "未找到与查询相关的信息。查询: "
      ++ or_str query (or_str drug (or_str condition (js "N/A")))
  | _ =>
      let ctx := mkContext query drug condition in
      let summary :=
        if str_eqb source (js "clinicaltrials") then generateClinicalTrialsSummary chunks ctx
        else if str_eqb source (js "openfda") then generateOpenFDASummary chunks ctx
        else if str_eqb source (js "rxnav") then generateRxNavSummary chunks ctx
        else generateGenericSummary chunks ctx in
      if maxLength <? len summary
      then slice summary 0 (maxLength - 3) ++ js "..."
      else summary
  end.

End Summaries.

(* ================================================================== *)
(** ** extractCitations *)

Definition key_type : jsstring := Eval vm_compute in js "type".
Definition key_title : jsstring := Eval vm_compute in js "title".

(** The state the [forEach] callbacks share: the array being filled and the
    set of ids already pushed. *)
Record CiteState := mkCiteState {
  cs_citations : list Citation;
  seenIds : list jsstring
}.

(** [if (!seenIds.has(id)) { citations.push(c); seenIds.add(id); }] *)
Definition push_unseen (st : CiteState) (c : Citation) : CiteState :=
  if set_has (seenIds st) (cite_id c) then st
  else {| cs_citations := cs_citations st ++ [c];
          seenIds := set_add (seenIds st) (cite_id c) |}.

(** The body of [chunks.forEach(chunk => ...)]. *)
Definition cite_chunk (st : CiteState) (chunk : TextChunk) : CiteState :=
  let st :=
    fold_left
      (fun st nctId => push_unseen st (mkCitation nctId JUndefined (JStr (js "clinical_trial"))))
      (match_all re_NCT (text chunk)) st in
  let st :=
    fold_left
      (fun st m =>
         match match_first re_digits m with
         | Some id0 => push_unseen st (mkCitation id0 JUndefined (JStr (js "rxnorm")))
         | None => st
         end)
      (match_all re_rxcui (text chunk)) st in
  push_unseen st
    (mkCitation (source chunk)
       (get_prop key_title (metadata chunk))
       (or_else (get_prop key_type (metadata chunk)) (JStr (js "document")))).

Definition extractCitations (chunks : list TextChunk) : list Citation :=
  cs_citations (fold_left cite_chunk chunks (mkCiteState [] [])).

(* ================================================================== *)
(** ** rankAndPickTop over a store of objects

    The same function with its objects in a store, for what the call does to
    the objects it is handed: an address names a chunk object or an array of
    addresses; allocation appends a cell; an array is sorted in place. *)

Module Store.

Definition addr := nat.

Inductive cell :=
| ChunkObj (c : TextChunk)
| ArrayObj (elems : list addr).

Definition store := list cell.

Definition alloc (st : store) (c : cell) : store * addr := (st ++ [c], length st).

Fixpoint write (st : store) (a : addr) (c : cell) : store :=
  match st, a with
  | [], _ => []
  | _ :: r, O => c :: r
  | x :: r, S a' => x :: write r a' c
  end.

Definition read_chunk (st : store) (a : addr) : option TextChunk :=
  match nth_error st a with
  | Some (ChunkObj c) => Some c
  | _ => None
  end.

Definition read_array (st : store) (a : addr) : option (list addr) :=
  match nth_error st a with
  | Some (ArrayObj l) => Some l
  | _ => None
  end.

Definition not_an_object : jsstring := Eval vm_compute in js "TypeError".

Section WithRuntime.
Context {rt : Runtime}.

(** [chunks.map(chunk => ({ ...chunk, score: ... }))]: one fresh object per
    element, in order; a throwing callback ends the walk. *)
Fixpoint map_scored (st : store) (elems : list addr) (query : jsstring)
    (extraKeywords : list jsstring) : store * completion (list addr) :=
  match elems with
  | [] => (st, Returns [])
  | a :: rest =>
      match read_chunk st a with
      | None => (st, Throws not_an_object)
      | Some chunk =>
          match scoreChunkByQuery chunk query extraKeywords with
          | Throws e => (st, Throws e)
          | Returns s =>
              let '(st, a') := alloc st (ChunkObj (with_score chunk s)) in
              let '(st, r) := map_scored st rest query extraKeywords in
              (st, match r with
                   | Returns l => Returns (a' :: l)
                   | Throws e => Throws e
                   end)
          end
      end
  end.

(** The score an address leads to, as the comparator reads it. *)
Definition score_at (st : store) (a : addr) : option float :=
  match read_chunk st a with
  | Some c => score c
  | None => None
  end.

Definition compare_at (st : store) (a b : addr) : float :=
  PrimFloat.sub (or_zero (score_at st b)) (or_zero (score_at st a)).

Definition rankAndPickTop (st : store) (chunks : addr) (query : jsstring) (topK : Z)
    (extraKeywords : list jsstring) : store * completion addr :=
  match read_array st chunks with
  | None => (st, Throws not_an_object)
  | Some elems =>
      let '(st, r) := map_scored st elems query extraKeywords in
      match r with
      | Throws e => (st, Throws e)
      | Returns fresh =>
          let '(st, scoredChunks) := alloc st (ArrayObj fresh) in
          let st := write st scoredChunks (ArrayObj (sort_by (compare_at st) fresh)) in
          match read_array st scoredChunks with
          | None => (st, Throws not_an_object)
          | Some sorted =>
              let '(st, result) := alloc st (ArrayObj (slice sorted 0 topK)) in
              (st, Returns result)
          end
      end
  end.

End WithRuntime.
End Store.

(* ================================================================== *)
(** ** The orchestrator, [aePipelineRag] of [src/index.ts] *)

Record AEPipelineRAGParams := mkParams {
  query : option jsstring;
  drug : option jsstring;
  condition : option jsstring;
  top_k : Z;
  filters_limit : option Z
}.

Record DrugLabelSearchParams := mkSearch {
  search : option jsstring;
  limit : Z;
  skip : Z
}.

(** A label of the upstream response, by the fields the pipeline reads.  A
    text section is a string or an array of strings. *)
Module Label.

Inductive field :=
| Str (s : jsstring)
| Arr (l : list jsstring).

Record openfda_t := mkOpenfda {
  brand_name : option (list jsstring);
  generic_name : option (list jsstring);
  manufacturer_name : option (list jsstring);
  spl_id : option (list jsstring)
}.

Record t := mk {
  id : option jsstring;
  openfda : option openfda_t;
  indications_and_usage : option field;
  dosage_and_administration : option field;
  contraindications : option field;
  warnings : option field;
  boxed_warning : option field;
  precautions : option field;
  adverse_reactions : option field;
  drug_interactions : option field
}.

(** Truthiness of a section: an array always, a string unless empty. *)
Definition given (f : option field) : bool :=
  match f with
  | Some (Arr _) => true
  | Some (Str (_ :: _)) => true
  | _ => false
  end.

(** [label.openfda?.name?.[0]] *)
Definition first_of (l : t) (name : openfda_t -> option (list jsstring)) : option jsstring :=
  match openfda l with
  | Some o => match name o with Some (x :: _) => Some x | _ => None end
  | None => None
  end.

End Label.

Record OpenFDAResponse := mkResponse { results : option (list Label.t) }.

(** The text payload [JSON.stringify(result, null, 2)], kept structured. *)
Inductive json_text := JSON_stringify (result : RAGResult).

Record ToolContent := mkContent { content_type : jsstring; content_text : json_text }.

(** What a run of the orchestrator is: it ends with an outcome, or asks the
    fetch collaborator ([this.makeRequest]) and goes on with its answer, or
    draws a random label id, or never leaves a loop. *)
Inductive run (A : Type) :=
| Done (outcome : completion A)
| Fetch (request : DrugLabelSearchParams) (k : completion OpenFDAResponse -> run A)
| RandomId (k : jsstring -> run A)
| Diverge.
Arguments Done {A} outcome.
Arguments Fetch {A} request k.
Arguments RandomId {A} k.
Arguments Diverge {A}.

(** The section of [extractLabelText] for one field: its heading, then the
    field, an array joined by line breaks. *)
Definition section_parts (heading : string) (f : option Label.field) : list jsstring :=
  if Label.given f then
    [js heading;
     match f with
     | Some (Label.Arr l) => join nl l
     | Some (Label.Str s) => s
     | None => []
     end]
  else [].

Definition extractLabelText (label : Label.t) : jsstring :=
  let drugName :=
    or_str (Label.first_of label Label.brand_name)
      (or_str (Label.first_of label Label.generic_name) (js "Unknown Drug")) in
  let manufacturer :=
    or_str (Label.first_of label Label.manufacturer_name) (js "Unknown Manufacturer") in
  let textParts :=
    [js "Drug: " ++ drugName; js "Manufacturer: " ++ manufacturer]
    ++ section_parts "=== INDICATIONS AND USAGE ===" (Label.indications_and_usage label)
    ++ section_parts "=== DOSAGE AND ADMINISTRATION ===" (Label.dosage_and_administration label)
    ++ section_parts "=== CONTRAINDICATIONS ===" (Label.contraindications label)
    ++ section_parts "=== WARNINGS ===" (Label.warnings label)
    ++ section_parts "=== BOXED WARNING ===" (Label.boxed_warning label)
    ++ section_parts "=== PRECAUTIONS ===" (Label.precautions label)
    ++ section_parts "=== ADVERSE REACTIONS ===" (Label.adverse_reactions label)
    ++ section_parts "=== DRUG INTERACTIONS ===" (Label.drug_interactions label) in
  join (nl ++ nl) textParts.

Definition pipeline_extraKeywords : list jsstring :=
  [js "adverse reactions"; js "side effects"; js "warnings"; js "contraindications";
   js "boxed warning"; js "precautions"; js "safety"; js "toxicity";
   js "不良反应"; js "副作用"; js "警告"; js "禁忌症"; js "安全性"].

(** The bundle of the two early returns. *)
Definition empty_bundle (params : AEPipelineRAGParams) (message : jsstring) : RAGResult :=
  {| r_source := js "openfda";
     r_query := query params;
     r_drug := drug params;
     r_condition := condition params;
     top_chunks := [];
     summary := message;
     citations := [] |}.

Definition respond (result : RAGResult) : list ToolContent :=
  [mkContent (js "text") (JSON_stringify result)].

(** [ErrorCode.InternalError] of [@modelcontextprotocol/sdk/types.js]. *)
Definition InternalError : Z := -32603.

(** The message of [new McpError(code, message)]: the constructor of the
    SDK's class passes [`MCP error ${code}: ${message}`] to [Error], so the
    code stands in front of the words the caller gives. *)
Definition McpError (code : Z) (message : jsstring) : jsstring :=
  js "MCP error " ++ decimal code ++ js ": " ++ message.

(** [catch (error) { throw new McpError(ErrorCode.InternalError,
    `RAG pipeline failed: ${error.message}`) }] *)
Definition rethrow {A} (c : completion A) : completion A :=
  match c with
  | Returns a => Returns a
  | Throws message =>
      Throws (McpError InternalError (js "RAG pipeline failed: " ++ message))
  end.

Section Pipeline.
Context {rt : Runtime}.

(** Step 1: the search terms. *)
Definition searchTerms_of (params : AEPipelineRAGParams) : list jsstring :=
  (if present (drug params) then
     let d := or_str (drug params) [] in
     [js "openfda.brand_name:" ++ [34%N] ++ d ++ [34%N]
      ++ js " OR openfda.generic_name:" ++ [34%N] ++ d ++ [34%N]
      ++ js " OR openfda.substance_name:" ++ [34%N] ++ d ++ [34%N]]
   else [])
  ++ (if present (condition params) then
        [js "indications_and_usage:" ++ [34%N] ++ or_str (condition params) [] ++ [34%N]]
      else [])
  ++ (if present (query params) then
        let queryWords :=
          filter (fun w => 2 <? len w) (split_ws (or_str (query params) [])) in
        if 0 <? len queryWords then [join (js " AND ") queryWords] else []
      else []).

(** Step 3 for one label: its chunks, behind the chunks gathered so far. *)
Definition chunk_label (label : Label.t) (labelId : jsstring) : option (list TextChunk) :=
  let labelText := extractLabelText label in
  let drugName :=
    or_str (Label.first_of label Label.brand_name)
      (or_str (Label.first_of label Label.generic_name) (js "Unknown Drug")) in
  chunkText (length labelText) labelText 1000 200 labelId
    [(js "drugName", JStr drugName);
     (js "manufacturer",
      match Label.first_of label Label.manufacturer_name with
      | Some m => JStr m
      | None => JUndefined
      end);
     (js "type", JStr (js "fda_label"));
     (js "hasWarnings",
      JBool (Label.given (Label.warnings label) || Label.given (Label.boxed_warning label)));
     (js "hasAdverseReactions", JBool (Label.given (Label.adverse_reactions label)))].

(** Steps 4 to 8, once every label is chunked. *)
Definition finish (params : AEPipelineRAGParams) (allChunks : list TextChunk)
  : completion (list ToolContent) :=
  let queryText :=
    join (js " ")
      (filter (fun s => match s with [] => false | _ => true end)
         (map (fun o => or_str o []) [query params; drug params; condition params])) in
  topChunks <- rankAndPickTop allChunks queryText (top_k params) pipeline_extraKeywords ;;
  let summary :=
    summarizeChunks topChunks
      {| opt_source := js "openfda"; opt_query := query params; opt_drug := drug params;
         opt_condition := condition params; opt_maxLength := Some 1200 |} in
  let citations := extractCitations topChunks in
  Returns
    (respond
       {| r_source := js "openfda";
          r_query := query params;
          r_drug := drug params;
          r_condition := condition params;
          top_chunks :=
            map (fun chunk =>
                   mkChunk (id chunk)
                     (if 1200 <? len (text chunk)
                      then slice (text chunk) 0 1200 ++ js "..."
                      else text chunk)
                     (source chunk) (metadata chunk) (score chunk))
                topChunks;
          summary := summary;
          citations := citations |}).

(** The [for (const label of data.results)] loop. *)
Fixpoint chunk_labels (params : AEPipelineRAGParams) (labels : list Label.t)
    (allChunks : list TextChunk) : run (list ToolContent) :=
  match labels with
  | [] => Done (rethrow (finish params allChunks))
  | label :: rest =>
      match trim (extractLabelText label) with
      | [] => chunk_labels params rest allChunks
      | _ =>
          let go (labelId : jsstring) :=
            match chunk_label label labelId with
            | Some chunks => chunk_labels params rest (allChunks ++ chunks)
            | None => Diverge
            end in
          match Label.id label with
          | Some (c :: s) => go (c :: s)
          | _ =>
              match Label.first_of label Label.spl_id with
              | Some (c :: s) => go (c :: s)
              | _ => RandomId (fun suffix => go (js "label_" ++ suffix))
              end
          end
      end
  end.

Definition aePipelineRag (params : AEPipelineRAGParams) : run (list ToolContent) :=
  let limit :=
    match filters_limit params with
    | Some l => if l =? 0 then 50 else l
    | None => 50
    end in
  let searchTerms := searchTerms_of params in
  let continue (search : jsstring) :=
    Fetch {| search := Some search; limit := limit; skip := 0 |}
      (fun data =>
         match data with
         | Throws message => Done (rethrow (Throws message))
         | Returns data =>
             match results data with
             | None | Some [] =>
                 Done (Returns (respond (empty_bundle params
                   (js "未找到匹配的 FDA 药物标签数据。请尝试调整搜索条件。"))))
             | Some labels => chunk_labels params labels []
             end
         end) in
  if 0 <? len searchTerms then continue (join (js " AND ") searchTerms)
  else if present (drug params) then continue (or_str (drug params) [])
  else
    Done (Returns (respond (empty_bundle params
      (js "请提供药物名称或具体查询条件以获取 FDA 标签信息。")))).

End Pipeline.

(* ================================================================== *)
(** ** Vocabulary of the statements about chunkText *)

(** The piece of text one pass of the loop cuts at cursor [start]. *)
Definition piece_at (text : jsstring) (chunkSize start : Z) : jsstring :=
  let end_ := Z.min (start + chunkSize) (len text) in
  let piece := slice text start end_ in
  if end_ <? len text then
    let breakPoint := Z.max (lastIndexOf piece 46%N) (lastIndexOf piece 10%N) in
    if above70 breakPoint chunkSize then slice piece 0 (breakPoint + 1) else piece
  else piece.

(** The cursor after a pass that cut [n] characters at [start]. *)
Definition next_start (chunkSize overlap start n : Z) : Z :=
  if start + (n - overlap) <=? start then start + chunkSize else start + (n - overlap).

(** The chunk a pass at cursor [start] pushes. *)
Definition chunk_at (text : jsstring) (chunkSize : Z) (sourceId : jsstring) (md : object)
    (start chunkIndex : Z) : TextChunk :=
  let piece := piece_at text chunkSize start in
  {| id := sourceId ++ js "_chunk_" ++ decimal chunkIndex;
     text := trim piece;
     source := sourceId;
     metadata :=
       set_prop key_end (JNum (start + len piece))
         (set_prop key_start (JNum start)
            (set_prop key_chunkIndex (JNum chunkIndex) md));
     score := None |}.

(** Position [p] of the text lies in the span of one of the chunks. *)
Definition covered (p : Z) (chunks : list TextChunk) : Prop :=
  exists c s e, In c chunks /\ chunk_span c = Some (s, e) /\ s <= p < e.

(** The binary64 comparison of the snap test never lets through a break
    point that keeps 70% of [chunkSize] or less. *)
Definition snap_ok (chunkSize : Z) : Prop :=
  forall bp, -1 <= bp < chunkSize -> above70 bp chunkSize = true ->
             7 * chunkSize < 10 * (bp + 1).

(** [snap_ok] decided by running the comparison on every break point a
    window of [chunkSize] characters can have. *)
Definition snap_ok_b (chunkSize : Z) : bool :=
  forallb (fun i => let bp := Z.of_nat i - 1 in
                    implb (above70 bp chunkSize) (7 * chunkSize <? 10 * (bp + 1)))
          (seq 0 (Z.to_nat (chunkSize + 1))).

(* ================================================================== *)
(** ** Vocabulary of the statements about the other functions *)

(** [maxLength] as [summarizeChunks] destructures it: 1200 when absent. *)
Definition maxLength_of (options : SummaryOptions) : Z :=
  match opt_maxLength options with
  | Some m => m
  | None => 1200
  end.

(** The message [summarizeChunks] returns for an empty list. *)
Definition not_found_message (options : SummaryOptions) : jsstring :=
  js "未找到与查询相关的信息。查询: "
  ++ or_str (opt_query options)
       (or_str (opt_drug options) (or_str (opt_condition options) (js "N/A"))).

(** The citation [extractCitations] builds from a chunk's [source]. *)
Definition fallback_citation (chunk : TextChunk) : Citation :=
  mkCitation (source chunk)
    (get_prop key_title (metadata chunk))
    (or_else (get_prop key_type (metadata chunk)) (JStr (js "document"))).

(** The citations a chunk's text yields, in the order the two scans meet
    them: the trial ids, then the RxCUI numbers. *)
Definition identifier_citations (chunk : TextChunk) : list Citation :=
  map (fun nctId => mkCitation nctId JUndefined (JStr (js "clinical_trial")))
      (match_all re_NCT (text chunk))
  ++ flat_map
       (fun m =>
          match match_first re_digits m with
          | Some id0 => [mkCitation id0 JUndefined (JStr (js "rxnorm"))]
          | None => []
          end)
       (match_all re_rxcui (text chunk)).

(** Every citation the walk over the chunks attempts to push, in order. *)
Definition candidates (chunks : list TextChunk) : list Citation :=
  flat_map (fun chunk => identifier_citations chunk ++ [fallback_citation chunk]) chunks.

(** The state of [extractCitations] after [chunks] and after the two scans
    of one more chunk, right before its [source] is considered. *)
Definition state_before_source (chunks : list TextChunk) (chunk : TextChunk) : CiteState :=
  fold_left push_unseen (identifier_citations chunk)
    (fold_left cite_chunk chunks (mkCiteState [] [])).

(** Following the claim about the scorer: the occurrences of a keyword as a
    substring of the text, counted at every position. *)
Fixpoint count_occurrences (s needle : jsstring) : nat :=
  match s with
  | [] => 0
  | _ :: r => (if startsWith s needle then 1 else 0) + count_occurrences r needle
  end.

(** A run of the orchestrator against a fetch collaborator and a supply of
    random ids: the outcome ([None] for a loop that never ends) and the
    requests the collaborator received, in order. *)
Fixpoint execute {A} (fetch : DrugLabelSearchParams -> completion OpenFDAResponse)
    (rand : nat -> jsstring) (drawn : nat) (r : run A)
  : option (completion A) * list DrugLabelSearchParams :=
  match r with
  | Done outcome => (Some outcome, [])
  | Fetch request k =>
      let '(outcome, requests) := execute fetch rand drawn (k (fetch request)) in
      (outcome, request :: requests)
  | RandomId k => execute fetch rand (S drawn) (k (rand drawn))
  | Diverge => (None, [])
  end.

(** What [extractCitations] has cited so far. *)
Definition ids (st : CiteState) : list jsstring := map cite_id (cs_citations st).

(** The set of seen ids is the set of ids cited. *)
Definition coherent (st : CiteState) : Prop :=
  forall x, set_has (seenIds st) x = true <-> In x (ids st).


(* ================================================================== *)
(** ** A runtime to run the model on concrete inputs

    Lower-casing of the ASCII letters; keywords made of literal characters
    and dots counted as the ECMAScript engine counts their matches, any other
    pattern syntax refused; a stand-in for the logarithm.  No theorem below
    is about this runtime: it instantiates them. *)

Definition ascii_lower (s : jsstring) : jsstring :=
  map (fun c => if is_upper c then (c + 32)%N else c) s.

Definition is_syntax_char (c : jschar) : bool :=
  existsb (char_eqb c)
    [94; 36; 92; 46; 42; 43; 63; 40; 41; 91; 93; 123; 125; 124]%N.

Definition is_line_terminator (c : jschar) : bool :=
  existsb (char_eqb c) [10; 13; 8232; 8233]%N.

Fixpoint plain_pattern (keyword : jsstring) : option (list item) :=
  match keyword with
  | [] => Some []
  | c :: r =>
      match plain_pattern r with
      | None => None
      | Some p =>
          if char_eqb c 46%N then Some (mkItem (fun x => negb (is_line_terminator x)) One :: p)
          else if is_syntax_char c then None
          else Some (lit c :: p)
      end
  end.

Definition plain_match_count (keyword text : jsstring) : completion nat :=
  match plain_pattern keyword with
  | Some p => Returns (length (match_all p text))
  | None => Throws (js "SyntaxError: Invalid regular expression")
  end.

Definition plain_runtime : Runtime := {|
  toLowerCase := ascii_lower;
  regexp_match_count := plain_match_count;
  Math_log := fun x => PrimFloat.sub x 1%float
|}.

(* ================================================================== *)
(** ** Concrete inputs the theorems are instantiated at *)

Definition sample_chunk : TextChunk :=
  mkChunk (js "doc1_chunk_0") (js "Boxed warning: see NCT01234567.") (js "doc1") [] None.

Definition sample_options : SummaryOptions :=
  mkOptions (js "openfda") None (Some (js "aspirin")) None (Some 40).

Definition ranked_sample : list TextChunk :=
  [mkChunk (js "d_chunk_0") (js "unrelated") (js "d") [] None;
   mkChunk (js "d_chunk_1") (js "Warning: a warning") (js "d") [] None].

Definition sample_store : Store.store :=
  [Store.ChunkObj (mkChunk (js "d_chunk_0") (js "unrelated") (js "d") [] None);
   Store.ChunkObj (mkChunk (js "d_chunk_1") (js "Warning: a warning") (js "d") [] (Some 7%float));
   Store.ArrayObj [0%nat; 1%nat]].

Definition sample_run : Store.store * completion Store.addr :=
  Store.rankAndPickTop (rt := plain_runtime) sample_store 2%nat
    (js "warning") 1 [].

Definition prompt_for_input : jsstring :=
  js "请提供药物名称或具体查询条件以获取 FDA 标签信息。".


(* ================================================================== *)
(** ** Vocabulary of the further statements *)

(** The chunks pushed by passes at the cursors [cs], numbered from [idx]. *)
Fixpoint chunks_from (doc : jsstring) (chunkSize : Z) (sourceId : jsstring) (md : object)
    (idx : Z) (cs : list Z) : list TextChunk :=
  match cs with
  | [] => []
  | s :: r =>
      chunk_at doc chunkSize sourceId md s idx
      :: chunks_from doc chunkSize sourceId md (idx + 1) r
  end.

(** [cs] are the cursors of the loop started at [start]: each one inside
    the text, each the [next_start] of the one before, the one after the
    last at or past the end of the text. *)
Fixpoint cursor_chain (doc : jsstring) (chunkSize overlap start : Z) (cs : list Z) : Prop :=
  match cs with
  | [] => len doc <= start
  | s :: r =>
      s = start /\ start < len doc
      /\ cursor_chain doc chunkSize overlap
           (next_start chunkSize overlap start (len (piece_at doc chunkSize start))) r
  end.

(** A chunk without its score. *)
Definition clear_score (c : TextChunk) : TextChunk :=
  mkChunk (id c) (text c) (source c) (metadata c) None.

(** [l1] is [l2] with some elements left out. *)
Inductive subsequence {A} : list A -> list A -> Prop :=
| sub_nil : subsequence [] []
| sub_skip x l1 l2 : subsequence l1 l2 -> subsequence l1 (x :: l2)
| sub_keep x l1 l2 : subsequence l1 l2 -> subsequence (x :: l1) (x :: l2).

(** The chunks a list of store addresses names. *)
Definition read_chunks (st : Store.store) (elems : list Store.addr) : list TextChunk :=
  flat_map (fun a => match Store.read_chunk st a with
                     | Some c => [c]
                     | None => []
                     end) elems.

(** [limit] as [aePipelineRag] computes it: [params.filters?.limit || 50]. *)
Definition limit_of (params : AEPipelineRAGParams) : Z :=
  match filters_limit params with
  | Some l => if l =? 0 then 50 else l
  | None => 50
  end.

Definition no_match_message : jsstring :=
  js "未找到匹配的 FDA 药物标签数据。请尝试调整搜索条件。".

(** The bundle inside a tool response. *)
Definition bundle_of (content : list ToolContent) : option RAGResult :=
  match content with
  | [c] => match content_text c with JSON_stringify r => Some r end
  | _ => None
  end.

Definition sample_doc : jsstring := js "A. B. C. D. E.".

Definition sample_metadata : object :=
  [(js "type", JStr (js "fda_label")); (js "start", JNum 99)].

(** What the sample ranking returns. *)
Definition ranked_sample_top : list TextChunk :=
  match rankAndPickTop (rt := plain_runtime) ranked_sample (js "warning") 1 [js "safety"] with
  | Returns out => out
  | Throws _ => []
  end.

(** The one request [aePipelineRag] sends to the fetch collaborator. *)
Definition request_of {rt : Runtime} (params : AEPipelineRAGParams) : DrugLabelSearchParams :=
  {| search := Some (join (js " AND ") (searchTerms_of params));
     limit := limit_of params;
     skip := 0 |}.

(** A run from the loop over the labels on: it ends in [finish] on the
    pool grown by [more] chunks of at most 1000 characters each (at least
    one if [nonempty]), and sends the collaborator nothing. *)
Definition ends_with_pool {rt : Runtime}
    (fetch : DrugLabelSearchParams -> completion OpenFDAResponse)
    (rand : nat -> jsstring) (params : AEPipelineRAGParams) (pool : list TextChunk)
    (drawn : nat) (r : run (list ToolContent)) (nonempty : bool) : Prop :=
  exists more,
    execute fetch rand drawn r = (Some (rethrow (finish params (pool ++ more))), [])
    /\ Forall (fun c => len (text c) <= 1000) more
    /\ (nonempty = true -> more <> []).

(** The query string [aePipelineRag] scores the chunks against. *)
Definition queryText_of (params : AEPipelineRAGParams) : jsstring :=
  join (js " ")
    (filter (fun s => match s with [] => false | _ => true end)
       (map (fun o => or_str o []) [query params; drug params; condition params])).

(** A fetch collaborator that answers every request with one label. *)
Definition sample_label : Label.t :=
  Label.mk (Some (js "label-1"))
    (Some (Label.mkOpenfda (Some [js "Aspirin"]) None (Some [js "Acme"]) None))
    (Some (Label.Arr [js "Pain relief."]))
    None None
    (Some (Label.Str (js "Warning: bleeding risk. See NCT01234567.")))
    None None None None.

Definition sample_fetch (request : DrugLabelSearchParams) : completion OpenFDAResponse :=
  Returns (mkResponse (Some [sample_label])).

Definition failing_fetch (request : DrugLabelSearchParams) : completion OpenFDAResponse :=
  Throws (js "OpenFDA API error (500): down").

Definition empty_fetch (request : DrugLabelSearchParams) : completion OpenFDAResponse :=
  Returns (mkResponse (Some [])).

Definition sample_rand (n : nat) : jsstring := js "k3j9x0q1z".

Definition sample_params : AEPipelineRAGParams :=
  mkParams (Some (js "bleeding risk")) (Some (js "aspirin")) None 5 None.

Definition short_query_params : AEPipelineRAGParams :=
  mkParams (Some (js "is it ok")) None (Some []) 5 None.

(** The content the sample run returns. *)
Definition sample_content : list ToolContent :=
  match execute sample_fetch sample_rand 0
          (aePipelineRag (rt := plain_runtime) sample_params) with
  | (Some (Returns content), _) => content
  | _ => []
  end.

(** The chunk at an address, for addresses that name one. *)
Definition chunk_or_blank (st : Store.store) (a : Store.addr) : TextChunk :=
  match Store.read_chunk st a with
  | Some c => c
  | None => mkChunk [] [] [] [] None
  end.

Definition blank_chunk : TextChunk :=
  mkChunk (js "doc1_chunk_3") [] (js "doc1") [] None.

Definition tiny_options : SummaryOptions :=
  mkOptions (js "openfda") None (Some (js "aspirin")) None (Some 2).

(* ################################################################## *)
(** * Proofs *)

(* ================================================================== *)
(** ** Lists, slices and strings *)

Lemma len_nonneg {A} (l : list A) : 0 <= len l.
Proof. unfold len. lia. Qed.

Lemma len_app {A} (l1 l2 : list A) : len (l1 ++ l2) = len l1 + len l2.
Proof. unfold len. rewrite length_app. lia. Qed.

Lemma len_nil_iff {A} (l : list A) : len l = 0 <-> l = [].
Proof.
  unfold len. split.
  - destruct l; simpl; [reflexivity | lia].
  - intros ->. reflexivity.
Qed.

Lemma slice_len_le {A} (l : list A) (f t : Z) : len (slice l f t) <= len l.
Proof.
  unfold slice, len. rewrite length_firstn, length_skipn. lia.
Qed.

Lemma slice_len {A} (l : list A) (f t : Z) :
  0 <= f -> f <= t -> t <= len l -> len (slice l f t) = t - f.
Proof.
  intros Hf Hft Ht. unfold slice, clamp_index, len in *.
  rewrite length_firstn, length_skipn.
  destruct (f <? 0) eqn:E1; [apply Z.ltb_lt in E1; lia|].
  destruct (t <? 0) eqn:E2; [apply Z.ltb_lt in E2; lia|].
  lia.
Qed.

Lemma slice_len_bound {A} (l : list A) (f t : Z) :
  0 <= f -> 0 <= t -> len (slice l f t) <= Z.max 0 (t - f).
Proof.
  intros Hf Ht. unfold slice, clamp_index, len.
  rewrite length_firstn.
  destruct (f <? 0) eqn:E1; [apply Z.ltb_lt in E1; lia|].
  destruct (t <? 0) eqn:E2; [apply Z.ltb_lt in E2; lia|].
  lia.
Qed.

Lemma lastIndexOf_from_bounds s c i found :
  -1 <= found < i -> 0 <= i ->
  -1 <= lastIndexOf_from s c i found < i + len s.
Proof.
  revert i found. induction s as [|x r IH]; intros i found Hf Hi; simpl.
  - unfold len; simpl. lia.
  - specialize (IH (i + 1) (if char_eqb x c then i else found)).
    replace (len (x :: r)) with (1 + len r) by (unfold len; simpl length; lia).
    destruct (char_eqb x c); lia.
Qed.

Lemma lastIndexOf_bounds s c : -1 <= lastIndexOf s c < len s.
Proof.
  unfold lastIndexOf.
  pose proof (lastIndexOf_from_bounds s c 0 (-1)). lia.
Qed.

Lemma trimStart_length s : (length (trimStart s) <= length s)%nat.
Proof.
  induction s as [|c r IH]; simpl; [lia|].
  destruct (is_space c); simpl; lia.
Qed.

Lemma trim_len_le s : len (trim s) <= len s.
Proof.
  unfold trim, len. rewrite length_rev.
  pose proof (trimStart_length (rev (trimStart s))).
  rewrite length_rev in H.
  pose proof (trimStart_length s). lia.
Qed.

Lemma str_eqb_refl s : str_eqb s s = true.
Proof.
  induction s as [|c r IH]; simpl; [reflexivity|].
  unfold char_eqb. rewrite N.eqb_refl. exact IH.
Qed.

Lemma str_eqb_eq a b : str_eqb a b = true <-> a = b.
Proof.
  split.
  - revert b. induction a as [|x a IH]; destruct b as [|y b]; simpl; try discriminate; auto.
    intros H. apply andb_true_iff in H. destruct H as [H1 H2].
    apply N.eqb_eq in H1. subst. f_equal. auto.
  - intros ->. apply str_eqb_refl.
Qed.

Lemma get_set_same k v o : get_prop k (set_prop k v o) = v.
Proof.
  induction o as [|[k' v'] r IH]; simpl.
  - rewrite str_eqb_refl. reflexivity.
  - destruct (str_eqb k k') eqn:E; simpl.
    + rewrite str_eqb_refl. reflexivity.
    + rewrite E. exact IH.
Qed.

Lemma get_set_other k k' v o :
  str_eqb k k' = false -> get_prop k (set_prop k' v o) = get_prop k o.
Proof.
  intros Hne. induction o as [|[k2 v2] r IH]; simpl.
  - rewrite Hne. reflexivity.
  - destruct (str_eqb k' k2) eqn:E; simpl.
    + apply str_eqb_eq in E. subst k2. rewrite Hne. reflexivity.
    + destruct (str_eqb k k2); [reflexivity | exact IH].
Qed.

Lemma last_chunk_snoc chunks c : last_chunk (chunks ++ [c]) = Some c.
Proof.
  unfold last_chunk. rewrite length_app. simpl.
  replace (length chunks + 1 - 1)%nat with (length chunks) by lia.
  rewrite nth_error_app2 by lia. rewrite Nat.sub_diag. reflexivity.
Qed.

(* ================================================================== *)
(** ** chunkText: one pass of the loop *)

Lemma chunk_step_eq text chunkSize overlap sourceId md start chunkIndex chunks :
  chunk_step text chunkSize overlap sourceId md start chunkIndex chunks =
  (chunks ++ [chunk_at text chunkSize sourceId md start chunkIndex],
   next_start chunkSize overlap start (len (piece_at text chunkSize start))).
Proof.
  unfold chunk_step, chunk_at, next_start, piece_at.
  cbv zeta. rewrite last_chunk_snoc. cbn [metadata].
  rewrite get_set_other by reflexivity. rewrite get_set_same.
  reflexivity.
Qed.

Lemma chunk_at_span text chunkSize sourceId md start chunkIndex :
  chunk_span (chunk_at text chunkSize sourceId md start chunkIndex) =
  Some (start, start + len (piece_at text chunkSize start)).
Proof.
  unfold chunk_span, chunk_at. cbn [metadata].
  rewrite get_set_other by reflexivity. rewrite !get_set_same. reflexivity.
Qed.

Lemma piece_at_len_bounds text chunkSize start :
  0 <= start < len text -> 0 < chunkSize ->
  0 <= len (piece_at text chunkSize start) <= chunkSize
  /\ start + len (piece_at text chunkSize start) <= len text.
Proof.
  intros Hs Hc. unfold piece_at. cbv zeta.
  set (e := Z.min (start + chunkSize) (len text)).
  assert (He : start < e <= len text) by (unfold e; lia).
  assert (Hp : len (slice text start e) = e - start) by (apply slice_len; lia).
  destruct (e <? len text) eqn:E.
  - set (bp := Z.max _ _).
    destruct (above70 bp chunkSize).
    + pose proof (slice_len_le (slice text start e) 0 (bp + 1)).
      pose proof (len_nonneg (slice (slice text start e) 0 (bp + 1))).
      unfold e in *. lia.
    + unfold e in *. lia.
  - unfold e in *. lia.
Qed.

Lemma piece_at_reaching_end text chunkSize start :
  0 <= start < len text -> len text <= start + chunkSize ->
  len (piece_at text chunkSize start) = len text - start.
Proof.
  intros Hs He. unfold piece_at. cbv zeta.
  replace (Z.min (start + chunkSize) (len text)) with (len text) by lia.
  rewrite Z.ltb_irrefl. apply slice_len; lia.
Qed.

Lemma piece_at_inner text chunkSize start :
  0 <= start -> 0 < chunkSize -> start + chunkSize < len text ->
  len (piece_at text chunkSize start) = chunkSize
  \/ exists bp, -1 <= bp < chunkSize /\ above70 bp chunkSize = true
                /\ len (piece_at text chunkSize start) = bp + 1.
Proof.
  intros Hs Hc He. unfold piece_at. cbv zeta.
  replace (Z.min (start + chunkSize) (len text)) with (start + chunkSize) by lia.
  assert (Hp : len (slice text start (start + chunkSize)) = chunkSize).
  { rewrite slice_len; lia. }
  destruct (start + chunkSize <? len text) eqn:E; [|apply Z.ltb_ge in E; lia].
  set (piece := slice text start (start + chunkSize)) in *.
  set (bp := Z.max (lastIndexOf piece 46%N) (lastIndexOf piece 10%N)).
  assert (Hbp : -1 <= bp < chunkSize).
  { pose proof (lastIndexOf_bounds piece 46%N). pose proof (lastIndexOf_bounds piece 10%N).
    unfold bp. lia. }
  destruct (above70 bp chunkSize) eqn:Ea.
  - right. exists bp. split; [exact Hbp|]. split; [exact Ea|].
    rewrite slice_len; lia.
  - left. exact Hp.
Qed.

Lemma next_start_gt chunkSize overlap start n :
  0 < chunkSize -> start < next_start chunkSize overlap start n.
Proof.
  intros Hc. unfold next_start.
  destruct (start + (n - overlap) <=? start) eqn:E.
  - lia.
  - apply Z.leb_gt in E. lia.
Qed.

(* ================================================================== *)
(** ** chunkText: the loop *)

Lemma chunk_loop_unfold fuel text chunkSize overlap sourceId md start chunkIndex chunks :
  chunk_loop fuel text chunkSize overlap sourceId md start chunkIndex chunks =
  if start <? len text then
    match fuel with
    | O => None
    | S fuel' =>
        chunk_loop fuel' text chunkSize overlap sourceId md
          (next_start chunkSize overlap start (len (piece_at text chunkSize start)))
          (chunkIndex + 1)
          (chunks ++ [chunk_at text chunkSize sourceId md start chunkIndex])
    end
  else Some chunks.
Proof.
  destruct fuel; [reflexivity|].
  cbn [chunk_loop]. rewrite chunk_step_eq. reflexivity.
Qed.

Lemma chunk_loop_terminates fuel text chunkSize overlap sourceId md :
  0 < chunkSize ->
  forall start chunkIndex chunks,
    0 <= start -> len text - start <= Z.of_nat fuel ->
    exists out, chunk_loop fuel text chunkSize overlap sourceId md start chunkIndex chunks
                = Some out.
Proof.
  intros Hc. induction fuel as [|fuel IH]; intros start chunkIndex chunks Hs Hf;
    rewrite chunk_loop_unfold.
  - destruct (start <? len text) eqn:E; [apply Z.ltb_lt in E; lia | eauto].
  - destruct (start <? len text) eqn:E; [|eauto].
    apply IH.
    + pose proof (next_start_gt chunkSize overlap start
                    (len (piece_at text chunkSize start)) Hc). lia.
    + pose proof (next_start_gt chunkSize overlap start
                    (len (piece_at text chunkSize start)) Hc). lia.
Qed.

Lemma chunk_loop_fuel_irrelevant text chunkSize overlap sourceId md fuel :
  forall start chunkIndex chunks out fuel',
    chunk_loop fuel text chunkSize overlap sourceId md start chunkIndex chunks = Some out ->
    (fuel <= fuel')%nat ->
    chunk_loop fuel' text chunkSize overlap sourceId md start chunkIndex chunks = Some out.
Proof.
  induction fuel as [|fuel IH]; intros start chunkIndex chunks out fuel' H Hle;
    rewrite chunk_loop_unfold in H; rewrite chunk_loop_unfold.
  - destruct (start <? len text); [discriminate | exact H].
  - destruct (start <? len text); [|exact H].
    destruct fuel' as [|fuel']; [lia|].
    apply IH; [exact H | lia].
Qed.

Lemma chunkText_enough_fuel :
  forall (text : jsstring) (chunkSize overlap : Z) (sourceId : jsstring) (md : object)
         (fuel : nat),
    0 <= overlap < chunkSize ->
    (length text <= fuel)%nat ->
    exists chunks,
      chunkText fuel text chunkSize overlap sourceId md = Some chunks
      /\ forall fuel', (fuel <= fuel')%nat ->
           chunkText fuel' text chunkSize overlap sourceId md = Some chunks.
Proof.
  intros text chunkSize overlap sourceId md fuel Hco Hf.
  unfold chunkText. destruct text as [|c r] eqn:Et.
  - exists []. split; [reflexivity | intros; reflexivity].
  - rewrite <- Et in *.
    destruct (chunk_loop_terminates fuel text chunkSize overlap sourceId md
                ltac:(lia) 0 0 [] ltac:(lia)) as [out Hout].
    { unfold len. lia. }
    exists out. split; [exact Hout|].
    intros fuel' Hle.
    eapply chunk_loop_fuel_irrelevant; eauto.
Qed.

Lemma snap_ok_b_sound chunkSize : snap_ok_b chunkSize = true -> snap_ok chunkSize.
Proof.
  unfold snap_ok_b, snap_ok. intros H bp Hbp Ha.
  rewrite forallb_forall in H.
  specialize (H (Z.to_nat (bp + 1))).
  assert (Hin : In (Z.to_nat (bp + 1)) (seq 0 (Z.to_nat (chunkSize + 1)))).
  { apply in_seq. lia. }
  specialize (H Hin). cbv zeta in H.
  replace (Z.of_nat (Z.to_nat (bp + 1)) - 1) with bp in H by lia.
  rewrite Ha in H. simpl in H. apply Z.ltb_lt in H. exact H.
Qed.

(* ================================================================== *)
(** ** chunkText: the snap test in binary64

    [breakPoint > chunkSize * 0.7] is computed on floats.  The lemmas below
    follow the product through the rounding of the multiplication and show
    that, for a chunk size below 2^53, the test lets no break point through
    whose piece would hold 70% of the chunk size or less. *)

Lemma digits2_pos_bounds p :
  2 ^ (Zpos (digits2_pos p) - 1) <= Zpos p < 2 ^ Zpos (digits2_pos p).
Proof.
  induction p as [p IH | p IH |]; cbn [digits2_pos].
  - rewrite Pos2Z.inj_succ. change (Zpos p~1) with (2 * Zpos p + 1).
    replace (Z.succ (Zpos (digits2_pos p)) - 1) with (Z.succ (Zpos (digits2_pos p) - 1))
      by lia.
    rewrite !Z.pow_succ_r by lia. lia.
  - rewrite Pos2Z.inj_succ. change (Zpos p~0) with (2 * Zpos p).
    replace (Z.succ (Zpos (digits2_pos p)) - 1) with (Z.succ (Zpos (digits2_pos p) - 1))
      by lia.
    rewrite !Z.pow_succ_r by lia. lia.
  - simpl. lia.
Qed.

Lemma digits2_pos_unique p k :
  2 ^ (k - 1) <= Zpos p < 2 ^ k -> Zpos (digits2_pos p) = k.
Proof.
  intros [Hlo Hhi]. pose proof (digits2_pos_bounds p) as [Dlo Dhi].
  set (d := Zpos (digits2_pos p)) in *.
  assert (Hd : 0 < d) by (unfold d; lia).
  destruct (Z.lt_trichotomy d k) as [Hlt | [Heq | Hgt]]; [|exact Heq|].
  - assert (0 <= k - 1) by lia.
    assert (2 ^ d <= 2 ^ (k - 1)) by (apply Z.pow_le_mono_r; lia). lia.
  - destruct (Z_lt_le_dec k 0) as [Hneg | Hpos].
    + rewrite Z.pow_neg_r in Hhi by lia. lia.
    + assert (2 ^ k <= 2 ^ (d - 1)) by (apply Z.pow_le_mono_r; lia). lia.
Qed.

Lemma iter_xO_value d m : Zpos (Pos.iter xO m d) = Zpos m * 2 ^ Zpos d.
Proof.
  induction d as [|d IH] using Pos.peano_ind.
  - simpl. lia.
  - rewrite Pos.iter_succ.
    change (Zpos (Pos.iter xO m d)~0) with (2 * Zpos (Pos.iter xO m d)).
    rewrite IH, Pos2Z.inj_succ, Z.pow_succ_r by lia. lia.
Qed.

Lemma shr_1_div2 mrs : 0 <= shr_m mrs -> shr_m (shr_1 mrs) = Z.div2 (shr_m mrs).
Proof.
  destruct mrs as [m r s]. cbn [shr_m]. intros Hm.
  destruct m as [|[p|p|]|p]; try reflexivity. lia.
Qed.

Lemma iter_shr_1 p : forall mrs,
  0 <= shr_m mrs -> shr_m (iter_pos shr_1 p mrs) = shr_m mrs / 2 ^ Zpos p.
Proof.
  assert (H1 : forall mrs, 0 <= shr_m mrs -> shr_m (shr_1 mrs) = shr_m mrs / 2).
  { intros mrs Hm. rewrite shr_1_div2 by exact Hm. apply Z.div2_div. }
  induction p as [p IH | p IH |]; intros mrs Hm; cbn [iter_pos].
  - assert (0 <= shr_m (shr_1 mrs)) by (rewrite H1 by lia; apply Z.div_pos; lia).
    assert (0 <= shr_m (iter_pos shr_1 p (shr_1 mrs))).
    { rewrite IH by lia. apply Z.div_pos; [lia | apply Z.pow_pos_nonneg; lia]. }
    rewrite IH, IH, H1 by lia.
    assert (Hp : 0 < 2 ^ Zpos p) by (apply Z.pow_pos_nonneg; lia).
    rewrite !Z.div_div by lia.
    f_equal. change (Zpos p~1) with (2 * Zpos p + 1).
    replace (2 * Zpos p + 1) with (1 + Zpos p + Zpos p) by lia.
    rewrite !Z.pow_add_r by lia. lia.
  - assert (0 <= shr_m (iter_pos shr_1 p mrs)).
    { rewrite IH by lia. apply Z.div_pos; [lia | apply Z.pow_pos_nonneg; lia]. }
    rewrite IH, IH by lia.
    assert (Hp : 0 < 2 ^ Zpos p) by (apply Z.pow_pos_nonneg; lia).
    rewrite !Z.div_div by lia.
    f_equal. change (Zpos p~0) with (2 * Zpos p).
    replace (2 * Zpos p) with (Zpos p + Zpos p) by lia.
    rewrite !Z.pow_add_r by lia. lia.
  - rewrite H1 by lia. reflexivity.
Qed.

Lemma round_nearest_even_bounds m l :
  m <= round_nearest_even m l <= m + 1.
Proof.
  destruct l as [|[| |]]; simpl; try lia.
  destruct (Z.even m); lia.
Qed.

(** A mantissa of 53 digits is not touched by rounding. *)
Lemma binary_round_aux_canonical s m e :
  Zpos (digits2_pos m) = 53 -> -1074 <= e <= 971 ->
  binary_round_aux prec emax s (Zpos m) e loc_Exact = S754_finite s m e.
Proof.
  intros Hd He. unfold binary_round_aux, shr_fexp, fexp, SpecFloat.emin, prec, emax.
  cbn [Zdigits2]. rewrite Hd.
  replace (Z.max (53 + e - 53) (3 - 1024 - 53) - e) with 0 by lia.
  cbn [shr shr_record_of_loc shr_m loc_of_shr_record round_nearest_even Zdigits2].
  rewrite Hd.
  replace (Z.max (53 + e - 53) (3 - 1024 - 53) - e) with 0 by lia.
  cbn [shr shr_m].
  replace (e <=? 1024 - 53) with true by (symmetry; apply Z.leb_le; lia).
  reflexivity.
Qed.

(** Rounding a longer mantissa: the result is canonical and not below the
    truncation. *)
Lemma binary_round_aux_lower M E :
  let d := Zpos (digits2_pos M) in
  53 < d -> -1074 <= E + (d - 53) -> E + (d - 53) < 971 ->
  exists m e,
    binary_round_aux prec emax false (Zpos M) E loc_Exact = S754_finite false m e
    /\ Zpos (digits2_pos m) = 53
    /\ E + (d - 53) <= e <= E + (d - 53) + 1
    /\ Zpos M / 2 ^ (d - 53) <= Zpos m * 2 ^ (e - (E + (d - 53))).
Proof.
  intros d Hd Hlo Hhi.
  pose proof (digits2_pos_bounds M) as HM. fold d in HM.
  unfold binary_round_aux.
  assert (Hs1 : shr_fexp prec emax (Zpos M) E loc_Exact
                = (iter_pos shr_1 (Z.to_pos (d - 53))
                     {| shr_m := Zpos M; shr_r := false; shr_s := false |},
                   E + (d - 53))).
  { unfold shr_fexp, fexp, SpecFloat.emin, prec, emax. cbn [Zdigits2]. fold d.
    replace (Z.max (d + E - 53) (3 - 1024 - 53) - E) with (d - 53) by lia.
    cbn [shr_record_of_loc]. unfold shr.
    destruct (d - 53) as [|q|q] eqn:Eq; try lia.
    rewrite Pos2Z.id. reflexivity. }
  rewrite Hs1.
  set (mrs := iter_pos shr_1 (Z.to_pos (d - 53)) _).
  assert (Hm : shr_m mrs = Zpos M / 2 ^ (d - 53)).
  { unfold mrs. rewrite iter_shr_1 by (simpl; lia).
    cbn [shr_m]. rewrite Z2Pos.id by lia. reflexivity. }
  set (m' := shr_m mrs) in *.
  assert (Hm' : 2 ^ 52 <= m' < 2 ^ 53).
  { rewrite Hm.
    assert (Hp : 0 < 2 ^ (d - 53)) by (apply Z.pow_pos_nonneg; lia).
    assert (Hd1 : 2 ^ (d - 1) = 2 ^ 52 * 2 ^ (d - 53)).
    { rewrite <- Z.pow_add_r by lia. f_equal. lia. }
    assert (Hd2 : 2 ^ d = 2 ^ 53 * 2 ^ (d - 53)).
    { rewrite <- Z.pow_add_r by lia. f_equal. lia. }
    split.
    - apply Z.div_le_lower_bound; [lia|]. lia.
    - apply Z.div_lt_upper_bound; [lia|]. lia. }
  pose proof (round_nearest_even_bounds m' (loc_of_shr_record mrs)) as Hr.
  set (m'' := round_nearest_even m' (loc_of_shr_record mrs)) in *.
  destruct (Z_lt_le_dec m'' (2 ^ 53)) as [Hlt | Hge].
  - (* no carry *)
    destruct m'' as [|p|p] eqn:Ep; try lia.
    assert (Hdp : Zpos (digits2_pos p) = 53).
    { apply digits2_pos_unique. change (53 - 1) with 52. lia. }
    unfold shr_fexp, fexp, SpecFloat.emin, prec, emax. cbn [Zdigits2]. rewrite Hdp.
    replace (Z.max (53 + (E + (d - 53)) - 53) (3 - 1024 - 53) - (E + (d - 53)))
      with 0 by lia.
    cbn [shr shr_record_of_loc shr_m].
    replace (E + (d - 53) <=? 1024 - 53) with true by (symmetry; apply Z.leb_le; lia).
    exists p, (E + (d - 53)). split; [reflexivity|]. split; [exact Hdp|].
    split; [lia|]. rewrite Z.sub_diag. change (2 ^ 0) with 1. lia.
  - (* the mantissa was rounded up to 2^53 *)
    assert (Hm2 : m'' = 2 ^ 53) by lia.
    rewrite Hm2. change (2 ^ 53) with (Zpos (Pos.iter xO 1%positive 53)).
    unfold shr_fexp, fexp, SpecFloat.emin, prec, emax. cbn [Zdigits2].
    change (Zpos (digits2_pos (Pos.iter xO 1%positive 53))) with 54.
    replace (Z.max (54 + (E + (d - 53)) - 53) (3 - 1024 - 53) - (E + (d - 53)))
      with 1 by lia.
    cbn [shr shr_record_of_loc iter_pos].
    change (shr_m (shr_1 {| shr_m := Zpos (Pos.iter xO 1%positive 53);
                            shr_r := false; shr_s := false |}))
      with (Zpos (Pos.iter xO 1%positive 52)).
    replace (E + (d - 53) + 1 <=? 1024 - 53) with true by (symmetry; apply Z.leb_le; lia).
    exists (Pos.iter xO 1%positive 52), (E + (d - 53) + 1).
    split; [reflexivity|]. split; [reflexivity|].
    split; [lia|].
    replace (E + (d - 53) + 1 - (E + (d - 53))) with 1 by lia.
    change (Zpos (Pos.iter xO 1%positive 52) * 2 ^ 1) with (2 ^ 53). lia.
Qed.

Lemma valid_binary_canonical s m e :
  Zpos (digits2_pos m) = 53 -> -1074 <= e <= 971 ->
  valid_binary (S754_finite s m e) = true.
Proof.
  intros Hd He. unfold SpecFloat.valid_binary, bounded, canonical_mantissa, fexp,
    SpecFloat.emin, prec, emax.
  rewrite Hd. apply andb_true_intro. split.
  - apply Z.eqb_eq. lia.
  - apply Z.leb_le. lia.
Qed.

(** A positive integer below 2^53 converts exactly: the mantissa is the
    integer shifted to 53 digits. *)
Lemma float_of_Z_exact z :
  0 < z < 2 ^ 53 ->
  exists m e,
    Prim2SF (float_of_Z z) = S754_finite false m e
    /\ Zpos (digits2_pos m) = 53
    /\ -52 <= e <= 0
    /\ Zpos m = z * 2 ^ (- e).
Proof.
  intros Hz. destruct z as [|p|p]; try lia.
  pose proof (digits2_pos_bounds p) as Hp.
  remember (Zpos (digits2_pos p)) as d eqn:Ed.
  assert (Hd : 1 <= d <= 53).
  { split; [lia|].
    destruct (Z_le_gt_dec d 53) as [Hle | Hgt]; [exact Hle|].
    assert (2 ^ 53 <= 2 ^ (d - 1)) by (apply Z.pow_le_mono_r; lia). lia. }
  assert (Hn : exists m e,
             binary_normalize prec emax (Zpos p) 0 false = S754_finite false m e
             /\ Zpos (digits2_pos m) = 53 /\ -52 <= e <= 0
             /\ Zpos m = Zpos p * 2 ^ (- e)).
  { unfold binary_normalize, binary_round, shl_align, fexp, SpecFloat.emin, prec, emax.
    rewrite <- Ed.
    replace (Z.max (d + 0 - 53) (3 - 1024 - 53) - 0) with (d - 53) by lia.
    destruct (d - 53) as [|q|q] eqn:Eq; try lia.
    - exists p, 0. split.
      + apply binary_round_aux_canonical; lia.
      + split; [lia|]. split; [lia|]. simpl. lia.
    - assert (Hq : Zpos q = 53 - d) by lia.
      replace (Z.max (d + 0 - 53) (3 - 1024 - 53)) with (d - 53) by lia.
      assert (Hv : Zpos (Pos.iter xO p q) = Zpos p * 2 ^ (53 - d)).
      { rewrite iter_xO_value, Hq. reflexivity. }
      assert (Hdq : Zpos (digits2_pos (Pos.iter xO p q)) = 53).
      { apply digits2_pos_unique. rewrite Hv. change (53 - 1) with 52.
        assert (H52 : 2 ^ 52 = 2 ^ (d - 1) * 2 ^ (53 - d)).
        { rewrite <- Z.pow_add_r by lia. f_equal. lia. }
        assert (H53 : 2 ^ 53 = 2 ^ d * 2 ^ (53 - d)).
        { rewrite <- Z.pow_add_r by lia. f_equal. lia. }
        assert (Hpos : 0 < 2 ^ (53 - d)) by (apply Z.pow_pos_nonneg; lia).
        rewrite H52, H53. split.
        - apply Z.mul_le_mono_nonneg_r; lia.
        - apply Z.mul_lt_mono_pos_r; lia. }
      exists (Pos.iter xO p q), (d - 53). split.
      + rewrite Eq. apply binary_round_aux_canonical; [exact Hdq | lia].
      + split; [exact Hdq|]. split; [lia|].
        rewrite Hv. f_equal. f_equal. lia. }
  destruct Hn as (m & e & Hn & Hdm & He & Hv).
  exists m, e. unfold float_of_Z. rewrite Hn.
  rewrite Prim2SF_SF2Prim by (apply valid_binary_canonical; lia).
  auto.
Qed.

Lemma Prim2SF_seven_tenths :
  Prim2SF 0x1.6666666666666p-1%float = S754_finite false 6305039478318694 (-53).
Proof. vm_compute. reflexivity. Qed.

Lemma Prim2SF_float_of_zero : Prim2SF (float_of_Z 0) = S754_zero false.
Proof. vm_compute. reflexivity. Qed.

Lemma Prim2SF_float_of_minus_one :
  Prim2SF (float_of_Z (-1)) = S754_finite true 4503599627370496 (-52).
Proof. vm_compute. reflexivity. Qed.

(** Two positive canonical floats compare as their values do. *)
Lemma SFltb_canonical m1 e1 m2 e2 k :
  Zpos (digits2_pos m1) = 53 -> Zpos (digits2_pos m2) = 53 ->
  k <= e1 -> k <= e2 ->
  Zpos m2 * 2 ^ (e2 - k) <= Zpos m1 * 2 ^ (e1 - k) ->
  SFltb (S754_finite false m1 e1) (S754_finite false m2 e2) = false.
Proof.
  intros H1 H2 K1 K2 Hv.
  pose proof (digits2_pos_bounds m1) as B1. rewrite H1 in B1. change (53 - 1) with 52 in B1.
  pose proof (digits2_pos_bounds m2) as B2. rewrite H2 in B2. change (53 - 1) with 52 in B2.
  unfold SFltb, SFcompare.
  destruct (Z.compare_spec e1 e2) as [Heq | Hlt | Hgt]; [| |reflexivity].
  - subst e2.
    assert (Hp : 0 < 2 ^ (e1 - k)) by (apply Z.pow_pos_nonneg; lia).
    assert (Hle : Zpos m2 <= Zpos m1) by nia.
    change (Pos.compare_cont Eq m1 m2) with (Pos.compare m1 m2).
    destruct (Pos.compare_spec m1 m2); try reflexivity. lia.
  - exfalso.
    assert (Hp : 0 < 2 ^ (e1 - k)) by (apply Z.pow_pos_nonneg; lia).
    assert (Hs : 2 ^ (e2 - k) = 2 ^ (e2 - e1) * 2 ^ (e1 - k)).
    { rewrite <- Z.pow_add_r by lia. f_equal. lia. }
    assert (H2' : 2 ^ 1 <= 2 ^ (e2 - e1)) by (apply Z.pow_le_mono_r; lia).
    change (2 ^ 1) with 2 in H2'.
    rewrite Hs in Hv.
    assert (2 * 2 ^ (e1 - k) <= 2 ^ (e2 - e1) * 2 ^ (e1 - k))
      by (apply Z.mul_le_mono_nonneg_r; lia).
    nia.
Qed.

(** The snap test of chunkText lets no break point through whose piece
    would hold 70% of the chunk size or less, for every chunk size a
    binary64 number holds exactly. *)
Lemma above70_sound bp chunkSize :
  0 < chunkSize < 2 ^ 53 -> -1 <= bp < chunkSize ->
  10 * (bp + 1) <= 7 * chunkSize ->
  above70 bp chunkSize = false.
Proof.
  intros Hc Hbp Hle. unfold above70.
  rewrite ltb_spec, mul_spec, Prim2SF_seven_tenths.
  destruct (float_of_Z_exact chunkSize Hc) as (mc & ec & Hfc & Hdc & Hec & Hvc).
  rewrite Hfc. unfold SF64mul, SFmul. cbn [xorb].
  set (M := (mc * 6305039478318694)%positive).
  pose proof (digits2_pos_bounds mc) as Bc. rewrite Hdc in Bc. change (53 - 1) with 52 in Bc.
  assert (HM : Zpos M = Zpos mc * 6305039478318694) by reflexivity.
  assert (HdM : Zpos (digits2_pos M) = 105 \/ Zpos (digits2_pos M) = 106).
  { destruct (Z_lt_le_dec (Zpos M) (2 ^ 105)) as [Hlt | Hge].
    - left. apply digits2_pos_unique. change (105 - 1) with 104. split; [|exact Hlt].
      rewrite HM. change (2 ^ 104) with (2 ^ 52 * 2 ^ 52).
      apply Z.mul_le_mono_nonneg; lia.
    - right. apply digits2_pos_unique. change (106 - 1) with 105. split; [exact Hge|].
      rewrite HM. change (2 ^ 106) with (2 ^ 53 * 2 ^ 53).
      apply Z.mul_lt_mono_nonneg; lia. }
  destruct (binary_round_aux_lower M (ec + -53)) as (m1 & e1 & Hr & Hd1 & He1 & Hv1);
    [lia | lia | lia |].
  rewrite Hr. clear Hr.
  set (s := Zpos (digits2_pos M) - 53) in *.
  set (e0 := ec + -53 + s) in *.
  assert (Hkey : bp * 2 ^ 53 <= chunkSize * 6305039478318694).
  { change (2 ^ 53) with 9007199254740992 in *. lia. }
  destruct (Z.eq_dec bp (-1)) as [-> | Hn1].
  { rewrite Prim2SF_float_of_minus_one. reflexivity. }
  destruct (Z.eq_dec bp 0) as [-> | Hn0].
  { rewrite Prim2SF_float_of_zero. reflexivity. }
  destruct (float_of_Z_exact bp ltac:(lia)) as (m2 & e2 & Hfb & Hd2 & He2 & Hv2).
  rewrite Hfb.
  apply (SFltb_canonical m1 e1 m2 e2 (-106)); [exact Hd1 | exact Hd2 | lia | lia |].
  (* the value of bp, scaled by 2^106 *)
  assert (Hb : Zpos m2 * 2 ^ (e2 - -106) = bp * 2 ^ 106).
  { rewrite Hv2, <- Z.mul_assoc, <- Z.pow_add_r by lia. f_equal. f_equal. lia. }
  rewrite Hb.
  (* the truncated product is not below bp *)
  assert (Ht : bp * 2 ^ (- e0) <= Zpos M / 2 ^ s).
  { apply Z.div_le_lower_bound; [apply Z.pow_pos_nonneg; lia|].
    rewrite Z.mul_comm, <- Z.mul_assoc, <- Z.pow_add_r by lia.
    replace (- e0 + s) with (53 + - ec) by lia.
    rewrite Z.pow_add_r by lia.
    rewrite HM, Hvc.
    assert (0 < 2 ^ (- ec)) by (apply Z.pow_pos_nonneg; lia).
    nia. }
  assert (H106 : 2 ^ 106 = 2 ^ (- e0) * 2 ^ (e0 + 106)).
  { rewrite <- Z.pow_add_r by lia. f_equal. lia. }
  assert (He1' : 2 ^ (e1 - -106) = 2 ^ (e1 - e0) * 2 ^ (e0 + 106)).
  { rewrite <- Z.pow_add_r by lia. f_equal. lia. }
  rewrite H106, He1'.
  assert (0 < 2 ^ (e0 + 106)) by (apply Z.pow_pos_nonneg; lia).
  rewrite !Z.mul_assoc. apply Z.mul_le_mono_nonneg_r; [lia|]. lia.
Qed.

Lemma snap_ok_safe_integer chunkSize : 0 < chunkSize < 2 ^ 53 -> snap_ok chunkSize.
Proof.
  intros Hc bp Hbp Ha.
  destruct (Z_lt_le_dec (7 * chunkSize) (10 * (bp + 1))) as [Hlt | Hle]; [exact Hlt|].
  rewrite (above70_sound bp chunkSize Hc Hbp Hle) in Ha. discriminate.
Qed.

Lemma covered_app p l1 l2 : covered p l1 -> covered p (l1 ++ l2).
Proof.
  intros (c & s & e & Hin & Hsp & Hp). exists c, s, e.
  split; [apply in_or_app; left; exact Hin | auto].
Qed.

Lemma covered_last p l text chunkSize sourceId md start chunkIndex :
  start <= p < start + len (piece_at text chunkSize start) ->
  covered p (l ++ [chunk_at text chunkSize sourceId md start chunkIndex]).
Proof.
  intros Hp. eexists _, _, _. split; [apply in_or_app; right; left; reflexivity|].
  split; [apply chunk_at_span | exact Hp].
Qed.

Section ChunkLoop.
Variables (text : jsstring) (chunkSize overlap : Z) (sourceId : jsstring) (md : object).
Hypothesis Hsize : 0 <= overlap < chunkSize.

(** Every chunk the loop adds is the chunk of a pass at a cursor inside the
    text. *)
Lemma chunk_loop_emits fuel :
  forall start chunkIndex chunks out,
    0 <= start ->
    chunk_loop fuel text chunkSize overlap sourceId md start chunkIndex chunks = Some out ->
    exists added,
      out = chunks ++ added
      /\ Forall (fun c => exists s i, 0 <= s < len text
                                  /\ c = chunk_at text chunkSize sourceId md s i) added.
Proof.
  induction fuel as [|fuel IH]; intros start chunkIndex chunks out Hs H;
    rewrite chunk_loop_unfold in H.
  - destruct (start <? len text); [discriminate|].
    injection H as <-. exists []. rewrite app_nil_r. auto.
  - destruct (start <? len text) eqn:E.
    + apply Z.ltb_lt in E.
      apply IH in H.
      * destruct H as (added & -> & Hall).
        exists (chunk_at text chunkSize sourceId md start chunkIndex :: added).
        rewrite <- app_assoc. split; [reflexivity|].
        constructor; [|exact Hall]. exists start, chunkIndex. split; [lia | reflexivity].
      * pose proof (next_start_gt chunkSize overlap start
                      (len (piece_at text chunkSize start))). lia.
    + injection H as <-. exists []. rewrite app_nil_r. auto.
Qed.

Hypothesis Hoverlap : 10 * overlap <= 7 * chunkSize.
Hypothesis Hsnap : chunkSize < len text -> snap_ok chunkSize.

(** A pass never jumps over a character: the next cursor is inside or right
    behind the span just cut, unless that span reached the end of the text. *)
Lemma next_start_no_gap start :
  0 <= start < len text ->
  let n := len (piece_at text chunkSize start) in
  Z.min (next_start chunkSize overlap start n) (len text) <= start + n.
Proof.
  intros Hs n. subst n.
  remember (len (piece_at text chunkSize start)) as n eqn:En.
  destruct (Z_lt_le_dec (start + chunkSize) (len text)) as [Hin | Hend].
  - assert (Hn : overlap < n).
    { destruct (piece_at_inner text chunkSize start) as [Hn | (bp & Hbp & Ha & Hn)];
        try lia.
      assert (Hlt : chunkSize < len text) by lia.
      pose proof (Hsnap Hlt bp Hbp Ha). lia. }
    unfold next_start.
    destruct (start + (n - overlap) <=? start) eqn:E.
    + apply Z.leb_le in E. lia.
    + lia.
  - pose proof (piece_at_reaching_end text chunkSize start Hs Hend) as Hn. lia.
Qed.

Lemma chunk_loop_covers fuel :
  forall start chunkIndex chunks out,
    0 <= start ->
    (forall p, 0 <= p < Z.min start (len text) -> covered p chunks) ->
    chunk_loop fuel text chunkSize overlap sourceId md start chunkIndex chunks = Some out ->
    forall p, 0 <= p < len text -> covered p out.
Proof.
  induction fuel as [|fuel IH]; intros start chunkIndex chunks out Hs Hinv H p Hp;
    rewrite chunk_loop_unfold in H.
  - destruct (start <? len text) eqn:E; [discriminate|].
    apply Z.ltb_ge in E. injection H as <-. apply Hinv. lia.
  - destruct (start <? len text) eqn:E.
    + apply Z.ltb_lt in E.
      pose proof (next_start_gt chunkSize overlap start
                    (len (piece_at text chunkSize start)) ltac:(lia)) as Hgt.
      pose proof (next_start_no_gap start ltac:(lia)) as Hgap. cbv zeta in Hgap.
      eapply IH; [| |exact H|exact Hp]; [lia|].
      intros q Hq.
      destruct (Z_lt_le_dec q start) as [Hlt | Hge].
      * apply covered_app. apply Hinv. lia.
      * apply covered_last. lia.
    + apply Z.ltb_ge in E. injection H as <-. apply Hinv. lia.
Qed.

End ChunkLoop.

(* ================================================================== *)
(** ** chunkText: the claims *)

(** C1, as stated, fails: with [chunkSize = 10] and [overlap = 9] the
    first window of the 16-character text is snapped to its sentence end
    (9 characters), the advance of 9 - 9 = 0 trips the guard against a
    standing cursor, and the cursor jumps to 10: position 9 is in no span. *)
Lemma chunkText_gap_after_forced_advance :
  exists c1 c2,
    chunkText 16 (js "aaaaaaaa.bbbbbbb") 10 9 (js "doc1") [] = Some [c1; c2]
    /\ chunk_span c1 = Some (0, 9)
    /\ chunk_span c2 = Some (10, 16)
    /\ ~ covered 9 [c1; c2].
Proof.
  eexists _, _. split; [vm_compute; reflexivity|].
  split; [vm_compute; reflexivity|].
  split; [vm_compute; reflexivity|].
  intros (c & s & e & Hin & Hsp & Hp).
  destruct Hin as [<- | [<- | []]]; vm_compute in Hsp; injection Hsp as <- <-; lia.
Qed.

(** C1, amended: when the overlap is at most 70% of the chunk size, every
    character position of the text lies in the span of some chunk.  The
    text has fewer than 2^53 code units, as every JavaScript string has. *)
Theorem chunkText_covers_text :
  forall (doc : jsstring) (chunkSize overlap : Z) (sourceId : jsstring) (md : object)
         (fuel : nat),
    0 <= overlap < chunkSize ->
    10 * overlap <= 7 * chunkSize ->
    len doc < 2 ^ 53 ->
    (length doc <= fuel)%nat ->
    exists chunks,
      chunkText fuel doc chunkSize overlap sourceId md = Some chunks
      /\ forall p, 0 <= p < len doc -> covered p chunks.
Proof.
  intros doc chunkSize overlap sourceId md fuel Hsize Hov Hlen Hfuel.
  destruct (chunkText_enough_fuel doc chunkSize overlap sourceId md fuel Hsize Hfuel)
    as (chunks & Hrun & _).
  exists chunks. split; [exact Hrun|].
  assert (Hsnap : chunkSize < len doc -> snap_ok chunkSize).
  { intros Hlt. apply snap_ok_safe_integer. lia. }
  intros p Hp. unfold chunkText in Hrun.
  destruct doc as [|c0 r] eqn:Ed.
  - unfold len in Hp. simpl in Hp. lia.
  - rewrite <- Ed in *.
    eapply (chunk_loop_covers doc chunkSize overlap sourceId md Hsize Hov Hsnap
              fuel 0 0 [] chunks); [lia | intros q Hq; lia | exact Hrun | exact Hp].
Qed.

Lemma chunkText_covers_text_witness :
  exists chunks,
    chunkText 14 (js "A. B. C. D. E.") 6 2 (js "doc1") [] = Some chunks
    /\ forall p, 0 <= p < len (js "A. B. C. D. E.") -> covered p chunks.
Proof.
  apply chunkText_covers_text.
  - lia.
  - lia.
  - vm_compute. reflexivity.
  - vm_compute. lia.
Defined.

(** C2, as stated, fails: the window at 0 takes all five characters, the
    cursor steps back by the overlap to 3, and a second chunk follows; the
    first chunk is then not the final one and holds 5 < 0.7 * 10
    characters. *)
Lemma chunkText_short_chunk_before_tail :
  exists c1 c2,
    chunkText 5 (js "abcde") 10 2 (js "doc1") [] = Some [c1; c2]
    /\ text c1 = js "abcde"
    /\ 10 * len (text c1) < 7 * 10.
Proof.
  eexists _, _. split; [vm_compute; reflexivity|].
  split; vm_compute; reflexivity.
Qed.

(** White space trimmed from a chunk counts against its text length too:
    here the first window is not snapped, stops short of the end of the
    text, and leaves a one-character text. *)
Example chunkText_trim_shortens :
  exists c1 rest,
    chunkText 22 (js "a                    b") 10 0 (js "doc1") [] = Some (c1 :: rest)
    /\ chunk_span c1 = Some (0, 10)
    /\ text c1 = js "a".
Proof.
  eexists _, _. split; [vm_compute; reflexivity|].
  split; vm_compute; reflexivity.
Qed.

(** C2, amended: every chunk's text is at most [chunkSize] long and no
    longer than its span, and the span of a chunk whose window stops short
    of the end of the text is at least 70% of [chunkSize] (the text having
    fewer than 2^53 code units, as every JavaScript string has). *)
Theorem chunkText_chunk_sizes :
  forall (doc : jsstring) (chunkSize overlap : Z) (sourceId : jsstring) (md : object)
         (fuel : nat),
    0 <= overlap < chunkSize ->
    (length doc <= fuel)%nat ->
    exists chunks,
      chunkText fuel doc chunkSize overlap sourceId md = Some chunks
      /\ forall c, In c chunks ->
           len (text c) <= chunkSize
           /\ exists s e,
                chunk_span c = Some (s, e)
                /\ len (text c) <= e - s
                /\ (len doc < 2 ^ 53 -> s + chunkSize < len doc ->
                    7 * chunkSize <= 10 * (e - s)).
Proof.
  intros doc chunkSize overlap sourceId md fuel Hsize Hfuel.
  destruct (chunkText_enough_fuel doc chunkSize overlap sourceId md fuel Hsize Hfuel)
    as (chunks & Hrun & _).
  exists chunks. split; [exact Hrun|].
  intros c Hin. unfold chunkText in Hrun.
  destruct doc as [|c0 r] eqn:Ed.
  - injection Hrun as <-. destruct Hin.
  - rewrite <- Ed in *.
    apply (chunk_loop_emits doc chunkSize overlap sourceId md Hsize fuel 0 0 [] chunks
             (Z.le_refl 0)) in Hrun.
    destruct Hrun as (added & -> & Hall). simpl in Hin.
    rewrite Forall_forall in Hall.
    destruct (Hall c Hin) as (s & i & Hs & ->).
    pose proof (piece_at_len_bounds doc chunkSize s Hs ltac:(lia)) as [Hb1 Hb2].
    pose proof (trim_len_le (piece_at doc chunkSize s)) as Htrim.
    change (text (chunk_at doc chunkSize sourceId md s i))
      with (trim (piece_at doc chunkSize s)).
    split; [lia|].
    exists s, (s + len (piece_at doc chunkSize s)).
    split; [apply chunk_at_span|]. split; [lia|].
    intros Hlen Hinner.
    destruct (piece_at_inner doc chunkSize s) as [Hn | (bp & Hbp & Ha & Hn)]; try lia.
    assert (Hc : 0 < chunkSize < 2 ^ 53) by lia.
    pose proof (snap_ok_safe_integer chunkSize Hc bp Hbp Ha). lia.
Qed.

Lemma chunkText_chunk_sizes_witness :
  exists chunks,
    chunkText 14 (js "A. B. C. D. E.") 6 2 (js "doc1") [] = Some chunks
    /\ forall c, In c chunks ->
         len (text c) <= 6
         /\ exists s e,
              chunk_span c = Some (s, e)
              /\ len (text c) <= e - s
              /\ (len (js "A. B. C. D. E.") < 2 ^ 53 ->
                  s + 6 < len (js "A. B. C. D. E.") -> 7 * 6 <= 10 * (e - s)).
Proof.
  apply chunkText_chunk_sizes.
  - lia.
  - vm_compute. lia.
Defined.

(** C7: with [0 <= overlap < chunkSize] the loop of chunkText ends within
    as many passes as the text has characters: that much fuel gives a
    result, and more fuel gives the same one. *)
Theorem chunkText_terminates :
  forall (doc : jsstring) (chunkSize overlap : Z) (sourceId : jsstring) (md : object)
         (fuel : nat),
    0 <= overlap < chunkSize ->
    (length doc <= fuel)%nat ->
    exists chunks,
      chunkText fuel doc chunkSize overlap sourceId md = Some chunks
      /\ forall fuel', (fuel <= fuel')%nat ->
           chunkText fuel' doc chunkSize overlap sourceId md = Some chunks.
Proof. exact chunkText_enough_fuel. Qed.

Lemma chunkText_terminates_witness :
  exists chunks,
    chunkText 14 (js "A. B. C. D. E.") 6 2 (js "doc1") [] = Some chunks
    /\ forall fuel', (14 <= fuel')%nat ->
         chunkText fuel' (js "A. B. C. D. E.") 6 2 (js "doc1") [] = Some chunks.
Proof.
  apply chunkText_terminates.
  - lia.
  - vm_compute. lia.
Defined.

(** The parameters the orchestrator passes. *)
Lemma snap_ok_1000 : snap_ok 1000.
Proof. apply snap_ok_b_sound. vm_compute. reflexivity. Qed.

(* ================================================================== *)
(** ** summarizeChunks *)

Lemma summarizeChunks_empty (rt : Runtime) options :
  summarizeChunks [] options = not_found_message options.
Proof. unfold summarizeChunks, not_found_message. reflexivity. Qed.

Lemma len_ellipsis : len (js "...") = 3.
Proof. vm_compute. reflexivity. Qed.

(** The length control at the end of [summarizeChunks]. *)
Lemma truncate_len (summary : jsstring) (m : Z) :
  3 <= m ->
  len (if m <? len summary then slice summary 0 (m - 3) ++ js "..." else summary) <= m.
Proof.
  intros Hm. destruct (m <? len summary) eqn:E.
  - apply Z.ltb_lt in E. rewrite len_app, slice_len by lia.
    rewrite len_ellipsis. lia.
  - apply Z.ltb_ge in E. exact E.
Qed.

(** C3, as stated, fails: the empty list returns the 19-character
    not-found message before the length control is reached, whatever the
    runtime. *)
Lemma summarizeChunks_empty_list_ignores_maxLength :
  ~ exists rt : Runtime,
      len (summarizeChunks [] (mkOptions (js "openfda") None None None (Some 10))) <= 10.
Proof.
  intros [rt H]. rewrite summarizeChunks_empty in H.
  vm_compute in H. apply H. reflexivity.
Qed.

(** C3, amended: for a non-empty list and [maxLength >= 3] the summary is
    at most [maxLength] long; the empty list returns the not-found message
    as it is. *)
Theorem summarizeChunks_length :
  forall (rt : Runtime) (chunks : list TextChunk) (options : SummaryOptions),
    chunks <> [] ->
    3 <= maxLength_of options ->
    len (summarizeChunks chunks options) <= maxLength_of options
    /\ summarizeChunks [] options = not_found_message options.
Proof.
  intros rt chunks options Hne Hm. split; [|apply summarizeChunks_empty].
  destruct chunks as [|c r]; [contradiction|].
  unfold summarizeChunks.
  match goal with |- len (if _ <? len ?s then _ else _) <= _ => generalize s end.
  intros summary. apply truncate_len. exact Hm.
Qed.

Lemma summarizeChunks_length_witness :
  len (summarizeChunks (rt := plain_runtime) [sample_chunk] sample_options)
    <= maxLength_of sample_options
  /\ summarizeChunks (rt := plain_runtime) [] sample_options
     = not_found_message sample_options.
Proof.
  refine (summarizeChunks_length plain_runtime [sample_chunk] sample_options _ _).
  - discriminate.
  - vm_compute. intro H. discriminate H.
Defined.

(* ================================================================== *)
(** ** extractCitations *)

Lemma set_has_In s x : set_has s x = true <-> In x s.
Proof.
  unfold set_has. rewrite existsb_exists. split.
  - intros (y & Hy & E). apply str_eqb_eq in E. subst. exact Hy.
  - intros H. exists x. split; [exact H | apply str_eqb_refl].
Qed.

Lemma set_add_In s x y : In y (set_add s x) <-> In y s \/ y = x.
Proof.
  unfold set_add. destruct (set_has s x) eqn:E.
  - apply set_has_In in E. split; [auto | intros [H | ->]; auto].
  - rewrite in_app_iff. simpl. intuition auto.
Qed.

Lemma push_unseen_seen st c :
  set_has (seenIds st) (cite_id c) = true -> push_unseen st c = st.
Proof. intros H. unfold push_unseen. rewrite H. reflexivity. Qed.

Lemma push_unseen_new st c :
  set_has (seenIds st) (cite_id c) = false ->
  cs_citations (push_unseen st c) = cs_citations st ++ [c]
  /\ seenIds (push_unseen st c) = set_add (seenIds st) (cite_id c).
Proof. intros H. unfold push_unseen. rewrite H. split; reflexivity. Qed.

Lemma push_unseen_coherent st c : coherent st -> coherent (push_unseen st c).
Proof.
  intros Hco. destruct (set_has (seenIds st) (cite_id c)) eqn:E.
  - rewrite push_unseen_seen by exact E. exact Hco.
  - destruct (push_unseen_new st c E) as [Hc Hs].
    intros x. unfold ids. rewrite Hc, Hs, set_has_In, set_add_In, map_app, in_app_iff.
    rewrite <- set_has_In. rewrite (Hco x). unfold ids. simpl. intuition auto.
Qed.

Lemma NoDup_snoc {A} (l : list A) (x : A) :
  NoDup l -> ~ In x l -> NoDup (l ++ [x]).
Proof.
  induction l as [|y l IH]; simpl; intros Hnd Hx.
  - constructor; [intros [] | constructor].
  - inversion Hnd as [|? ? Hy Hl]; subst. constructor.
    + rewrite in_app_iff. simpl. intuition auto.
    + apply IH; [exact Hl | intuition auto].
Qed.

Lemma push_unseen_nodup st c :
  coherent st -> NoDup (ids st) -> NoDup (ids (push_unseen st c)).
Proof.
  intros Hco Hnd. destruct (set_has (seenIds st) (cite_id c)) eqn:E.
  - rewrite push_unseen_seen by exact E. exact Hnd.
  - destruct (push_unseen_new st c E) as [Hc _].
    unfold ids. rewrite Hc, map_app. simpl.
    apply NoDup_snoc; [exact Hnd|].
    intros Hin. apply Hco in Hin. congruence.
Qed.

Lemma fold_push_map {A} (f : A -> Citation) (l : list A) st :
  fold_left (fun st x => push_unseen st (f x)) l st = fold_left push_unseen (map f l) st.
Proof. revert st. induction l as [|x l IH]; intros st; simpl; [reflexivity | apply IH]. Qed.

Lemma fold_push_first_digits (f : jsstring -> Citation) (l : list jsstring) st :
  fold_left (fun st m => match match_first re_digits m with
                         | Some id0 => push_unseen st (f id0)
                         | None => st
                         end) l st
  = fold_left push_unseen
      (flat_map (fun m => match match_first re_digits m with
                          | Some id0 => [f id0]
                          | None => []
                          end) l) st.
Proof.
  revert st. induction l as [|m l IH]; intros st; simpl; [reflexivity|].
  rewrite fold_left_app. destruct (match_first re_digits m); simpl; apply IH.
Qed.

Lemma cite_chunk_pushes st chunk :
  cite_chunk st chunk
  = fold_left push_unseen (identifier_citations chunk ++ [fallback_citation chunk]) st.
Proof.
  unfold cite_chunk, identifier_citations, fallback_citation.
  rewrite !fold_left_app. cbn [fold_left]. f_equal.
  rewrite fold_push_map.
  apply (fold_push_first_digits
           (fun id0 => mkCitation id0 JUndefined (JStr (js "rxnorm")))).
Qed.

Lemma walk_pushes chunks st :
  fold_left cite_chunk chunks st = fold_left push_unseen (candidates chunks) st.
Proof.
  revert st. induction chunks as [|chunk chunks IH]; intros st; simpl; [reflexivity|].
  unfold candidates in *. simpl. rewrite fold_left_app, <- cite_chunk_pushes. apply IH.
Qed.

Lemma coherent_init : coherent (mkCiteState [] []).
Proof. intros x. unfold ids. simpl. split; [discriminate | intros []]. Qed.

(** What a run of pushes does to a coherent state. *)
Lemma pushes_spec (l : list Citation) :
  forall st, coherent st -> NoDup (ids st) ->
    let st' := fold_left push_unseen l st in
    coherent st' /\ NoDup (ids st')
    /\ (forall c, In c l -> In (cite_id c) (ids st'))
    /\ exists added,
         cs_citations st' = cs_citations st ++ added
         /\ forall c, In c added ->
              exists before after,
                l = before ++ c :: after
                /\ ~ In (cite_id c) (map cite_id before)
                /\ ~ In (cite_id c) (ids st).
Proof.
  induction l as [|c l IH]; intros st Hco Hnd; cbn zeta.
  - simpl. split; [exact Hco|]. split; [exact Hnd|]. split; [intros ? []|].
    exists []. rewrite app_nil_r. split; [reflexivity | intros ? []].
  - cbn [fold_left].
    pose proof (push_unseen_coherent st c Hco) as Hco1.
    pose proof (push_unseen_nodup st c Hco Hnd) as Hnd1.
    destruct (IH (push_unseen st c) Hco1 Hnd1) as (Hco' & Hnd' & Hall & added & Hadd & Hfirst).
    cbn zeta in *.
    assert (Hmono : forall x, In x (ids (push_unseen st c)) ->
                              In x (ids (fold_left push_unseen l (push_unseen st c)))).
    { intros x Hx. unfold ids in *. rewrite Hadd, map_app, in_app_iff. auto. }
    split; [exact Hco'|]. split; [exact Hnd'|]. split.
    + intros c' [<- | Hin]; [|apply Hall; exact Hin].
      apply Hmono. destruct (set_has (seenIds st) (cite_id c)) eqn:E.
      * rewrite push_unseen_seen by exact E. apply Hco. exact E.
      * destruct (push_unseen_new st c E) as [Hc _]. unfold ids.
        rewrite Hc, map_app, in_app_iff. right. left. reflexivity.
    + destruct (set_has (seenIds st) (cite_id c)) eqn:E.
      * rewrite push_unseen_seen in * by exact E.
        exists added. split; [exact Hadd|].
        intros c' Hc'. destruct (Hfirst c' Hc') as (before & after & -> & Hnb & Hns).
        exists (c :: before), after. split; [reflexivity|]. split; [|exact Hns].
        simpl. intros [Heq | Hin]; [|exact (Hnb Hin)].
        apply Hns. rewrite <- Heq. apply Hco. exact E.
      * destruct (push_unseen_new st c E) as [Hc _].
        exists (c :: added). split.
        { rewrite Hadd, Hc, <- app_assoc. reflexivity. }
        intros c' [<- | Hc'].
        { exists [], l. split; [reflexivity|]. split; [intros []|].
          intros Hin. apply Hco in Hin. congruence. }
        destruct (Hfirst c' Hc') as (before & after & -> & Hnb & Hns).
        unfold ids in Hns. rewrite Hc, map_app, in_app_iff in Hns. simpl in Hns.
        exists (c :: before), after. split; [reflexivity|]. split.
        { simpl. intros [Heq | Hin]; [|exact (Hnb Hin)]. apply Hns. right. left. exact Heq. }
        { intros Hin. apply Hns. left. exact Hin. }
Qed.

Lemma extractCitations_spec :
  forall chunks : list TextChunk,
    NoDup (map cite_id (extractCitations chunks))
    /\ (forall c, In c (extractCitations chunks) ->
          exists before after,
            candidates chunks = before ++ c :: after
            /\ ~ In (cite_id c) (map cite_id before))
    /\ (forall c, In c (candidates chunks) ->
          In (cite_id c) (map cite_id (extractCitations chunks))).
Proof.
  intros chunks. unfold extractCitations. rewrite walk_pushes.
  destruct (pushes_spec (candidates chunks) (mkCiteState [] []) coherent_init)
    as (_ & Hnd & Hall & added & Hadd & Hfirst).
  { constructor. }
  cbn zeta in *. simpl in Hadd.
  split; [exact Hnd|]. split; [|exact Hall].
  intros c Hc. rewrite Hadd in Hc.
  destruct (Hfirst c Hc) as (before & after & Heq & Hnb & _).
  exists before, after. auto.
Qed.

(** C8: no id is cited twice, and the citation kept for an id is the first
    one the walk over the chunks meets. *)
Theorem extractCitations_dedup_first_wins :
  forall chunks : list TextChunk,
    NoDup (map cite_id (extractCitations chunks))
    /\ (forall c, In c (extractCitations chunks) ->
          exists before after,
            candidates chunks = before ++ c :: after
            /\ ~ In (cite_id c) (map cite_id before))
    /\ (forall c, In c (candidates chunks) ->
          In (cite_id c) (map cite_id (extractCitations chunks))).
Proof. exact extractCitations_spec. Qed.

(** C4, as stated, fails: the text of this chunk yields a trial id, and
    its source is cited all the same. *)
Lemma extractCitations_source_beside_identifier :
  extractCitations
    [mkChunk (js "doc1_chunk_0") (js "See NCT01234567.") (js "doc1") [] None]
  = [mkCitation (js "NCT01234567") JUndefined (JStr (js "clinical_trial"));
     mkCitation (js "doc1") JUndefined (JStr (js "document"))].
Proof. vm_compute. reflexivity. Qed.

(** C4, amended: once a chunk's trial ids and RxCUI numbers are handled,
    the citation built from its source is appended unless that id is
    already cited, whether or not the chunk yielded an identifier; so the
    source of every chunk is among the cited ids. *)
Theorem extractCitations_cites_every_source :
  forall (chunks : list TextChunk) (chunk : TextChunk),
    let st := state_before_source chunks chunk in
    extractCitations (chunks ++ [chunk])
    = cs_citations st
      ++ (if set_has (seenIds st) (source chunk) then [] else [fallback_citation chunk])
    /\ forall later,
         In (source chunk) (map cite_id (extractCitations (chunks ++ chunk :: later))).
Proof.
  intros chunks chunk st. split.
  - unfold extractCitations. rewrite fold_left_app. cbn [fold_left].
    rewrite cite_chunk_pushes, fold_left_app. cbn [fold_left].
    change (fold_left push_unseen (identifier_citations chunk)
              (fold_left cite_chunk chunks (mkCiteState [] []))) with st.
    clearbody st. unfold push_unseen.
    change (cite_id (fallback_citation chunk)) with (source chunk).
    destruct (set_has (seenIds st) (source chunk)); [rewrite app_nil_r|]; reflexivity.
  - intros later.
    destruct (extractCitations_spec (chunks ++ chunk :: later)) as (_ & _ & Hall).
    apply (Hall (fallback_citation chunk)).
    unfold candidates. rewrite flat_map_app, in_app_iff. right. simpl.
    rewrite !in_app_iff. left. right. left. reflexivity.
Qed.

(* ================================================================== *)
(** ** rankAndPickTop *)

Lemma mapM_length {A B} (f : A -> completion B) (l : list A) (out : list B) :
  mapM f l = Returns out -> length out = length l.
Proof.
  revert out. induction l as [|x l IH]; intros out H; simpl in H.
  - injection H as <-. reflexivity.
  - destruct (f x); [|discriminate]. simpl in H.
    destruct (mapM f l); [|discriminate]. simpl in H.
    injection H as <-. simpl. f_equal. apply IH. reflexivity.
Qed.

Lemma mapM_returns {A B} (f : A -> completion B) (l : list A) :
  (forall x, In x l -> exists y, f x = Returns y) ->
  exists out, mapM f l = Returns out.
Proof.
  induction l as [|x l IH]; intros H; simpl.
  - eauto.
  - destruct (H x (or_introl eq_refl)) as [y ->]. simpl.
    destruct IH as [out ->]; [intros z Hz; apply H; right; exact Hz|].
    simpl. eauto.
Qed.

Lemma mapM_In {A B} (f : A -> completion B) (l : list A) (out : list B) :
  mapM f l = Returns out ->
  forall y, In y out -> exists x, In x l /\ f x = Returns y.
Proof.
  revert out. induction l as [|x l IH]; intros out H y Hy; simpl in H.
  - injection H as <-. destruct Hy.
  - destruct (f x) as [y0|] eqn:Ef; [|discriminate]. simpl in H.
    destruct (mapM f l) as [ys|]; [|discriminate]. simpl in H.
    injection H as <-. destruct Hy as [<- | Hy].
    + exists x. split; [left; reflexivity | exact Ef].
    + destruct (IH ys eq_refl y Hy) as (x' & Hx' & Hf).
      exists x'. split; [right; exact Hx' | exact Hf].
Qed.

Lemma insert_by_In {A} (cmp : A -> A -> float) (x y : A) (l : list A) :
  In y (insert_by cmp x l) <-> y = x \/ In y l.
Proof.
  induction l as [|z l IH]; simpl.
  - intuition auto.
  - destruct (PrimFloat.ltb 0 (cmp x z)); simpl; [rewrite IH|]; intuition auto.
Qed.

Lemma insert_by_length {A} (cmp : A -> A -> float) (x : A) (l : list A) :
  length (insert_by cmp x l) = S (length l).
Proof.
  induction l as [|z l IH]; simpl; [reflexivity|].
  destruct (PrimFloat.ltb 0 (cmp x z)); simpl; [rewrite IH|]; reflexivity.
Qed.

Lemma sort_by_In {A} (cmp : A -> A -> float) (y : A) (l : list A) :
  In y (sort_by cmp l) <-> In y l.
Proof.
  unfold sort_by. induction l as [|x l IH]; simpl; [reflexivity|].
  rewrite insert_by_In, IH. intuition auto.
Qed.

Lemma sort_by_length {A} (cmp : A -> A -> float) (l : list A) :
  length (sort_by cmp l) = length l.
Proof.
  unfold sort_by. induction l as [|x l IH]; simpl; [reflexivity|].
  rewrite insert_by_length, IH. reflexivity.
Qed.

Lemma slice_from_0_len {A} (l : list A) (k : Z) :
  len (slice l 0 k) = if k <? 0 then Z.max 0 (len l + k) else Z.min k (len l).
Proof.
  unfold slice.
  assert (H0 : clamp_index (len l) 0 = 0).
  { unfold clamp_index. pose proof (len_nonneg l). simpl. lia. }
  rewrite H0. simpl skipn. unfold len at 1. rewrite length_firstn.
  unfold clamp_index. pose proof (len_nonneg l) as Hn. fold (len l).
  destruct (k <? 0) eqn:E.
  - apply Z.ltb_lt in E. unfold len in *. lia.
  - apply Z.ltb_ge in E. unfold len in *. lia.
Qed.

Lemma In_firstn {A} (n : nat) (l : list A) (x : A) : In x (firstn n l) -> In x l.
Proof. intros H. rewrite <- (firstn_skipn n l). apply in_or_app. left. exact H. Qed.

Lemma In_skipn {A} (n : nat) (l : list A) (x : A) : In x (skipn n l) -> In x l.
Proof. intros H. rewrite <- (firstn_skipn n l). apply in_or_app. right. exact H. Qed.

Lemma slice_In {A} (l : list A) (f t : Z) (x : A) : In x (slice l f t) -> In x l.
Proof.
  unfold slice. intros H. apply In_firstn in H. apply In_skipn in H. exact H.
Qed.

Section Ranker.
Context {rt : Runtime}.

Lemma keyword_loop_returns text kws :
  (forall k, In k kws -> exists n, regexp_match_count k text = Returns n) ->
  forall score, exists s, keyword_loop text kws score = Returns s.
Proof.
  induction kws as [|k kws IH]; intros H score; simpl.
  - eauto.
  - destruct (H k (or_introl eq_refl)) as [n ->]. simpl.
    apply IH. intros k' Hk'. apply H. right. exact Hk'.
Qed.

Lemma scoreChunkByQuery_returns chunk query extraKeywords :
  (forall k, In k (allKeywords_of query extraKeywords) ->
             exists n, regexp_match_count k (toLowerCase (text chunk)) = Returns n) ->
  exists s, scoreChunkByQuery chunk query extraKeywords = Returns s.
Proof.
  intros H. unfold scoreChunkByQuery.
  destruct (keyword_loop_returns _ _ H 0%float) as [s ->]. simpl. eauto.
Qed.

(** The length of what [rankAndPickTop] returns, when it returns. *)
Lemma rankAndPickTop_returned_length chunks query topK extraKeywords out :
  rankAndPickTop chunks query topK extraKeywords = Returns out ->
  len out = if topK <? 0 then Z.max 0 (len chunks + topK) else Z.min topK (len chunks).
Proof.
  unfold rankAndPickTop. intros H.
  destruct (mapM _ chunks) as [scored|] eqn:Em; [|discriminate].
  simpl in H. injection H as <-.
  rewrite slice_from_0_len. apply mapM_length in Em.
  unfold len. rewrite sort_by_length, Em. reflexivity.
Qed.

Lemma rankAndPickTop_returns chunks query topK extraKeywords :
  (forall chunk k, In chunk chunks -> In k (allKeywords_of query extraKeywords) ->
     exists n, regexp_match_count k (toLowerCase (text chunk)) = Returns n) ->
  exists out, rankAndPickTop chunks query topK extraKeywords = Returns out.
Proof.
  intros H. unfold rankAndPickTop.
  destruct (mapM_returns
              (fun chunk => s <- scoreChunkByQuery chunk query extraKeywords ;;
                            Returns (with_score chunk s)) chunks) as [scored ->].
  - intros chunk Hin.
    destruct (scoreChunkByQuery_returns chunk query extraKeywords
                (fun k Hk => H chunk k Hin Hk)) as [s ->].
    simpl. eauto.
  - simpl. eauto.
Qed.

End Ranker.

(** C6, as stated, fails: with [topK = -1] the slice drops the last
    ranked chunk and keeps the other, whatever the runtime. *)
Lemma rankAndPickTop_negative_topK_keeps_chunks :
  ~ exists rt : Runtime,
      rankAndPickTop
        [mkChunk (js "d_chunk_0") (js "warning warning") (js "d") [] None;
         mkChunk (js "d_chunk_1") (js "unrelated") (js "d") [] None]
        (js "warning") (-1) []
      = Returns [].
Proof.
  intros [rt H]. apply rankAndPickTop_returned_length in H.
  vm_compute in H. discriminate H.
Qed.

(** C6, amended: when no keyword makes the regular-expression constructor
    throw, the call returns; the result is empty for [topK = 0] and for an
    empty list, and at most [topK] long for [topK >= 0]; a negative [topK]
    drops that many chunks from the end of the ranking instead. *)
Theorem rankAndPickTop_length :
  forall (rt : Runtime) (chunks : list TextChunk) (query : jsstring) (topK : Z)
         (extraKeywords : list jsstring),
    (forall chunk k, In chunk chunks -> In k (allKeywords_of query extraKeywords) ->
       exists n, regexp_match_count k (toLowerCase (text chunk)) = Returns n) ->
    exists out,
      rankAndPickTop chunks query topK extraKeywords = Returns out
      /\ (topK = 0 \/ chunks = [] -> out = [])
      /\ (0 <= topK -> len out <= topK)
      /\ (topK < 0 -> len out = Z.max 0 (len chunks + topK)).
Proof.
  intros rt chunks query topK extraKeywords H.
  destruct (rankAndPickTop_returns chunks query topK extraKeywords H) as [out Hout].
  exists out. split; [exact Hout|].
  apply rankAndPickTop_returned_length in Hout.
  pose proof (len_nonneg chunks) as Hn.
  destruct (topK <? 0) eqn:E; [apply Z.ltb_lt in E | apply Z.ltb_ge in E].
  - split; [|split; [lia | intros _; exact Hout]].
    intros [-> | ->]; [lia|]. apply len_nil_iff. change (len (@nil TextChunk)) with 0 in Hout. lia.
  - split; [|split; [lia | lia]].
    intros [-> | ->]; apply len_nil_iff; [lia|].
    change (len (@nil TextChunk)) with 0 in Hout. lia.
Qed.

Lemma rankAndPickTop_length_witness :
  exists out,
    rankAndPickTop (rt := plain_runtime) ranked_sample (js "warning") 1 [js "safety"]
      = Returns out
    /\ (1 = 0 \/ ranked_sample = [] -> out = [])
    /\ (0 <= 1 -> len out <= 1)
    /\ (1 < 0 -> len out = Z.max 0 (len ranked_sample + 1)).
Proof.
  refine (rankAndPickTop_length plain_runtime ranked_sample (js "warning") 1 [js "safety"] _).
  intros chunk k Hc Hk.
  vm_compute in Hk. destruct Hk as [<- | [<- | []]];
    destruct Hc as [<- | [<- | []]]; eexists; vm_compute; reflexivity.
Defined.

(* ================================================================== *)
(** ** rankAndPickTop over the store *)

Module StoreFacts.
Import Store.

Lemma write_length st a c : length (write st a c) = length st.
Proof.
  revert a. induction st as [|x st IH]; intros a; simpl; [reflexivity|].
  destruct a; simpl; [reflexivity | rewrite IH; reflexivity].
Qed.

Lemma write_other st a c b : a <> b -> nth_error (write st a c) b = nth_error st b.
Proof.
  revert a b. induction st as [|x st IH]; intros a b Hab; simpl.
  - destruct a; reflexivity.
  - destruct a, b; simpl; try reflexivity; [congruence | apply IH; congruence].
Qed.

Lemma write_same st a c : (a < length st)%nat -> nth_error (write st a c) a = Some c.
Proof.
  revert a. induction st as [|x st IH]; intros a Ha; simpl in *; [lia|].
  destruct a; simpl; [reflexivity | apply IH; lia].
Qed.

Lemma nth_error_alloc_old st c a :
  (a < length st)%nat -> nth_error (fst (alloc st c)) a = nth_error st a.
Proof. intros Ha. unfold alloc. simpl. apply nth_error_app1. exact Ha. Qed.

Lemma read_chunk_app st more a :
  (a < length st)%nat -> read_chunk (st ++ more) a = read_chunk st a.
Proof. intros Ha. unfold read_chunk. rewrite nth_error_app1 by exact Ha. reflexivity. Qed.

Section WithRuntime.
Context {rt : Runtime}.

(** The walk of [map] only appends: what it returns are the addresses of
    the cells it added, each a scored copy of the chunk its element names. *)
Lemma map_scored_spec elems query extraKeywords :
  forall st st' r,
    (forall a, In a elems -> (a < length st)%nat) ->
    map_scored st elems query extraKeywords = (st', r) ->
    exists added,
      st' = st ++ added
      /\ forall fresh, r = Returns fresh ->
           length fresh = length elems
           /\ forall a', In a' fresh ->
                (length st <= a' < length st')%nat
                /\ exists a c s, In a elems /\ read_chunk st a = Some c
                                 /\ read_chunk st' a' = Some (with_score c s).
Proof.
  induction elems as [|a elems IH]; intros st st' r Hwf H; simpl in H.
  - injection H as <- <-. exists []. rewrite app_nil_r. split; [reflexivity|].
    intros fresh Hf. injection Hf as <-. split; [reflexivity | intros ? []].
  - destruct (read_chunk st a) as [chunk|] eqn:Er.
    2:{ injection H as <- <-. exists []. rewrite app_nil_r. split; [reflexivity|].
        intros fresh Hf. discriminate Hf. }
    destruct (scoreChunkByQuery chunk query extraKeywords) as [s|e] eqn:Es.
    2:{ injection H as <- <-. exists []. rewrite app_nil_r. split; [reflexivity|].
        intros fresh Hf. discriminate Hf. }
    unfold alloc in H.
    destruct (map_scored (st ++ [ChunkObj (with_score chunk s)]) elems query extraKeywords)
      as [st1 r1] eqn:Erec.
    injection H as <- <-.
    assert (Hwf1 : forall b, In b elems ->
                     (b < length (st ++ [ChunkObj (with_score chunk s)]))%nat).
    { intros b Hb. rewrite !length_app. simpl. specialize (Hwf b (or_intror Hb)). lia. }
    destruct (IH _ _ _ Hwf1 Erec) as (added & -> & Hfresh).
    exists (ChunkObj (with_score chunk s) :: added).
    rewrite <- app_assoc. split; [reflexivity|].
    intros fresh Hf. destruct r1 as [l|]; [|discriminate Hf]. injection Hf as <-.
    destruct (Hfresh l eq_refl) as [Hlen Hall]. split; [simpl; f_equal; exact Hlen|].
    intros a' [<- | Ha'].
    + split; [rewrite !length_app; simpl; lia|].
      exists a, chunk, s. split; [left; reflexivity|]. split; [exact Er|].
      unfold read_chunk. rewrite nth_error_app2 by lia. rewrite Nat.sub_diag. reflexivity.
    + destruct (Hall a' Ha') as (Hrange & b & c & s' & Hb & Hrb & Hra').
      rewrite <- app_assoc in Hrange, Hra'.
      split; [rewrite !length_app in *; simpl in *; lia|].
      exists b, c, s'. split; [right; exact Hb|]. split; [|exact Hra'].
      rewrite read_chunk_app in Hrb; [exact Hrb | apply Hwf; right; exact Hb].
Qed.

Lemma rankAndPickTop_spec st chunks query topK extraKeywords st' r elems :
  read_array st chunks = Some elems ->
  (forall a, In a elems -> (a < length st)%nat) ->
  rankAndPickTop st chunks query topK extraKeywords = (st', r) ->
  (forall a, (a < length st)%nat -> nth_error st' a = nth_error st a)
  /\ forall result, r = Returns result ->
       (length st <= result)%nat
       /\ exists out,
            read_array st' result = Some out
            /\ forall a', In a' out ->
                 (length st <= a')%nat
                 /\ exists a c s, In a elems /\ read_chunk st a = Some c
                                  /\ read_chunk st' a' = Some (with_score c s).
Proof.
  intros Harr Hwf H. unfold rankAndPickTop in H. rewrite Harr in H.
  destruct (map_scored st elems query extraKeywords) as [st1 r1] eqn:Em.
  destruct (map_scored_spec elems query extraKeywords st st1 r1 Hwf Em)
    as (added & -> & Hfresh).
  destruct r1 as [fresh|e].
  2:{ injection H as <- <-. split.
      - intros a Ha. apply nth_error_app1. exact Ha.
      - intros result Hr. discriminate Hr. }
  destruct (Hfresh fresh eq_refl) as [_ Hall].
  unfold alloc in H.
  set (st2 := (st ++ added) ++ [ArrayObj fresh]) in *.
  set (sorted := sort_by (compare_at st2) fresh) in *.
  set (st3 := write st2 (length (st ++ added)) (ArrayObj sorted)) in *.
  assert (Hread : read_array st3 (length (st ++ added)) = Some sorted).
  { unfold read_array, st3. rewrite write_same; [reflexivity|].
    unfold st2. rewrite !length_app. simpl. lia. }
  rewrite Hread in H. injection H as <- <-.
  assert (Hold : forall a, (a < length (st ++ added))%nat ->
                           nth_error st3 a = nth_error (st ++ added) a).
  { intros a Ha. unfold st3. rewrite write_other by lia.
    unfold st2. apply nth_error_app1. exact Ha. }
  assert (Hlen2 : length st2 = S (length st + length added)).
  { unfold st2. rewrite !length_app. simpl. lia. }
  assert (Hlen3 : length st3 = S (length st + length added)).
  { unfold st3. rewrite write_length. exact Hlen2. }
  assert (Hla : length (st ++ added) = (length st + length added)%nat)
    by apply length_app.
  split.
  - intros a Ha. rewrite nth_error_app1 by lia.
    rewrite Hold by lia.
    apply nth_error_app1. exact Ha.
  - intros result Hr. injection Hr as <-.
    split; [lia|].
    exists (slice sorted 0 topK). split.
    + unfold read_array. rewrite nth_error_app2 by lia. rewrite Nat.sub_diag. reflexivity.
    + intros a' Ha'. apply slice_In in Ha'. apply sort_by_In in Ha'.
      destruct (Hall a' Ha') as (Hrange & a & c & s & Ha & Hra & Hra').
      split; [lia|]. exists a, c, s. split; [exact Ha|]. split; [exact Hra|].
      unfold read_chunk in *. rewrite nth_error_app1 by lia.
      rewrite Hold by lia. exact Hra'.
Qed.

End WithRuntime.

End StoreFacts.

(** C10: the call leaves every cell of the store it was given as it was
    (the input array and the chunk objects it names among them); what it
    returns is a fresh array of fresh objects, each an input chunk with its
    [score] set. *)
Theorem rankAndPickTop_leaves_input_unchanged :
  forall (rt : Runtime) (st : Store.store) (chunks : Store.addr) (query : jsstring)
         (topK : Z) (extraKeywords : list jsstring)
         (elems : list Store.addr) (st' : Store.store) (r : completion Store.addr),
    Store.read_array st chunks = Some elems ->
    (forall a, In a elems -> exists c, Store.read_chunk st a = Some c) ->
    Store.rankAndPickTop st chunks query topK extraKeywords = (st', r) ->
    (forall a, (a < length st)%nat -> nth_error st' a = nth_error st a)
    /\ forall result, r = Returns result ->
         (length st <= result)%nat
         /\ exists out,
              Store.read_array st' result = Some out
              /\ forall a', In a' out ->
                   (length st <= a')%nat
                   /\ exists a c s,
                        In a elems /\ Store.read_chunk st a = Some c
                        /\ Store.read_chunk st' a' = Some (with_score c s).
Proof.
  intros rt st chunks query topK extraKeywords elems st' r Harr Hobj H.
  eapply StoreFacts.rankAndPickTop_spec; eauto.
  intros a Ha. destruct (Hobj a Ha) as [c Hc].
  unfold Store.read_chunk in Hc.
  destruct (nth_error st a) eqn:E; [|discriminate].
  apply nth_error_Some. congruence.
Qed.

Lemma rankAndPickTop_leaves_input_unchanged_witness :
  (forall a, (a < length sample_store)%nat ->
             nth_error (fst sample_run) a = nth_error sample_store a)
  /\ forall result, snd sample_run = Returns result ->
       (length sample_store <= result)%nat
       /\ exists out,
            Store.read_array (fst sample_run) result = Some out
            /\ forall a', In a' out ->
                 (length sample_store <= a')%nat
                 /\ exists a c s,
                      In a [0%nat; 1%nat]
                      /\ Store.read_chunk sample_store a = Some c
                      /\ Store.read_chunk (fst sample_run) a' = Some (with_score c s).
Proof.
  refine (rankAndPickTop_leaves_input_unchanged plain_runtime sample_store
            2%nat (js "warning") 1 [] [0%nat; 1%nat] (fst sample_run) (snd sample_run)
            _ _ _).
  - vm_compute. reflexivity.
  - intros a [<- | [<- | []]]; eexists; vm_compute; reflexivity.
  - apply surjective_pairing.
Defined.

(* ================================================================== *)
(** ** scoreChunkByQuery *)

(** C5 at the failing input: the keyword [a.c] does not occur in the text
    [abc], yet the pattern built from it matches there once, and the score
    carries [1 * log(1 + 3)] for it. *)
Theorem scoreChunkByQuery_counts_pattern_matches :
  forall (rt : Runtime) (chunk : TextChunk),
    toLowerCase (text chunk) = js "abc" ->
    toLowerCase (js "a.c") = js "a.c" ->
    regexp_match_count (js "a.c") (js "abc") = Returns 1%nat ->
    count_occurrences (js "abc") (js "a.c") = 0%nat
    /\ scoreChunkByQuery chunk (js "a.c") [] =
       Returns (PrimFloat.div
                  (PrimFloat.add 0%float
                     (PrimFloat.mul (float_of_Z 1) (Math_log (float_of_Z 4))))
                  (PrimFloat.sqrt (float_of_Z 3))).
Proof.
  intros rt chunk Htext Hquery Hcount.
  split; [vm_compute; reflexivity|].
  unfold scoreChunkByQuery, allKeywords_of.
  rewrite Htext, Hquery.
  replace (filter (fun k => 2 <? len k) (split_ws (js "a.c") ++ map toLowerCase []))
    with [js "a.c"] by (vm_compute; reflexivity).
  cbn [keyword_loop]. rewrite Hcount. cbn [bind Nat.ltb Nat.leb].
  replace (includes (js "abc") (js "a.c")) with false by (vm_compute; reflexivity).
  replace (1 + len (js "a.c")) with 4 by (vm_compute; reflexivity).
  replace (len (js "abc")) with 3 by (vm_compute; reflexivity).
  reflexivity.
Qed.

Lemma scoreChunkByQuery_counts_pattern_matches_witness :
  count_occurrences (js "abc") (js "a.c") = 0%nat
  /\ scoreChunkByQuery (rt := plain_runtime)
       (mkChunk (js "d_chunk_0") (js "abc") (js "d") [] None) (js "a.c") [] =
     Returns (PrimFloat.div
                (PrimFloat.add 0%float
                   (PrimFloat.mul (float_of_Z 1)
                      (Math_log (Runtime := plain_runtime) (float_of_Z 4))))
                (PrimFloat.sqrt (float_of_Z 3))).
Proof.
  refine (scoreChunkByQuery_counts_pattern_matches plain_runtime
            (mkChunk (js "d_chunk_0") (js "abc") (js "d") [] None) _ _ _);
    vm_compute; reflexivity.
Defined.

(** A keyword that is no pattern makes the scorer throw. *)
Lemma scoreChunkByQuery_throws (rt : Runtime) chunk query extraKeywords k rest e :
  allKeywords_of query extraKeywords = k :: rest ->
  regexp_match_count k (toLowerCase (text chunk)) = Throws e ->
  scoreChunkByQuery chunk query extraKeywords = Throws e.
Proof.
  intros Hk He. unfold scoreChunkByQuery. rewrite Hk. cbn [keyword_loop].
  rewrite He. reflexivity.
Qed.

(* ================================================================== *)
(** ** aePipelineRag *)

(** C9: with query, drug and condition all absent the orchestrator ends at
    once with the prompt-for-input bundle: it returns (it does not throw),
    the bundle has no chunks and no citations, and the fetch collaborator
    receives no request. *)
Theorem aePipelineRag_no_criteria :
  forall (rt : Runtime) (top_k : Z) (filters_limit : option Z)
         (fetch : DrugLabelSearchParams -> completion OpenFDAResponse)
         (rand : nat -> jsstring),
    execute fetch rand 0 (aePipelineRag (mkParams None None None top_k filters_limit))
    = (Some (Returns
         [mkContent (js "text")
            (JSON_stringify
               {| r_source := js "openfda";
                  r_query := None; r_drug := None; r_condition := None;
                  top_chunks := [];
                  summary := prompt_for_input;
                  citations := [] |})]),
       []).
Proof.
  intros rt top_k filters_limit fetch rand.
  unfold aePipelineRag, searchTerms_of.
  cbn [query drug condition present app len length Z.of_nat Z.ltb Z.compare].
  unfold respond, empty_bundle, prompt_for_input.
  cbn [query drug condition execute]. reflexivity.
Qed.

(* ================================================================== *)
(** ** chunkText: the chunks one by one *)

Section ChunkList.
Variables (doc : jsstring) (chunkSize overlap : Z) (sourceId : jsstring) (md : object).
Hypothesis Hsize : 0 <= overlap < chunkSize.

Lemma chunk_loop_chain fuel :
  forall start chunkIndex chunks out,
    chunk_loop fuel doc chunkSize overlap sourceId md start chunkIndex chunks = Some out ->
    exists cs,
      out = chunks ++ chunks_from doc chunkSize sourceId md chunkIndex cs
      /\ cursor_chain doc chunkSize overlap start cs.
Proof.
  induction fuel as [|fuel IH]; intros start chunkIndex chunks out H;
    rewrite chunk_loop_unfold in H.
  - destruct (start <? len doc) eqn:E; [discriminate|].
    apply Z.ltb_ge in E. injection H as <-. exists []. simpl.
    rewrite app_nil_r. auto.
  - destruct (start <? len doc) eqn:E.
    + apply Z.ltb_lt in E. apply IH in H. destruct H as (cs & -> & Hchain).
      exists (start :: cs). simpl. rewrite <- app_assoc. auto.
    + apply Z.ltb_ge in E. injection H as <-. exists []. simpl.
      rewrite app_nil_r. auto.
Qed.

Lemma chunks_from_nth cs :
  forall idx i c,
    nth_error (chunks_from doc chunkSize sourceId md idx cs) i = Some c ->
    exists s, nth_error cs i = Some s
              /\ c = chunk_at doc chunkSize sourceId md s (idx + Z.of_nat i).
Proof.
  induction cs as [|s0 cs IH]; intros idx i c H; simpl in H.
  - destruct i; discriminate.
  - destruct i as [|i]; simpl in H.
    + injection H as <-. exists s0. split; [reflexivity|]. f_equal. simpl. lia.
    + apply IH in H. destruct H as (s & Hs & ->). exists s. split; [exact Hs|].
      f_equal. lia.
Qed.

Lemma cursor_chain_nth cs :
  forall start i s,
    cursor_chain doc chunkSize overlap start cs ->
    nth_error cs i = Some s ->
    start <= s < len doc
    /\ (i = 0%nat -> s = start)
    /\ forall s', nth_error cs (S i) = Some s' ->
         s' = next_start chunkSize overlap s (len (piece_at doc chunkSize s)).
Proof.
  induction cs as [|s0 cs IH]; intros start i s Hchain Hnth.
  - destruct i; discriminate.
  - destruct Hchain as (-> & Hlt & Hrest).
    pose proof (next_start_gt chunkSize overlap start
                  (len (piece_at doc chunkSize start)) ltac:(lia)) as Hgt.
    destruct i as [|i]; simpl in Hnth.
    + injection Hnth as <-. split; [lia|]. split; [reflexivity|].
      intros s' Hs'. simpl in Hs'. destruct cs as [|s1 cs']; [discriminate|].
      simpl in Hs'. injection Hs' as <-. destruct Hrest as (-> & _). reflexivity.
    + destruct (IH _ i s Hrest Hnth) as (Hr & _ & Hnext).
      split; [lia|]. split; [discriminate|]. exact Hnext.
Qed.

(** What [chunkText] returns, chunk by chunk. *)
Lemma chunkText_chain fuel :
  (length doc <= fuel)%nat ->
  exists cs,
    chunkText fuel doc chunkSize overlap sourceId md
    = Some (chunks_from doc chunkSize sourceId md 0 cs)
    /\ (doc <> [] -> cursor_chain doc chunkSize overlap 0 cs)
    /\ (doc = [] -> cs = []).
Proof.
  intros Hfuel.
  destruct (chunkText_enough_fuel doc chunkSize overlap sourceId md fuel Hsize Hfuel)
    as (chunks & Hrun & _).
  rewrite Hrun. unfold chunkText in Hrun. destruct doc as [|c0 r] eqn:Ed.
  - injection Hrun as <-. exists []. split; [reflexivity|]. split; [congruence | reflexivity].
  - rewrite <- Ed in *. apply chunk_loop_chain in Hrun.
    destruct Hrun as (cs & -> & Hchain). exists cs. simpl.
    split; [reflexivity|]. split; [intros _; exact Hchain | rewrite Ed; discriminate].
Qed.

End ChunkList.

Lemma str_eqb_neq a b : a <> b -> str_eqb a b = false.
Proof.
  intros H. destruct (str_eqb a b) eqn:E; [|reflexivity].
  apply str_eqb_eq in E. contradiction.
Qed.

Lemma slice_slice_prefix {A} (l : list A) (s e k : Z) :
  0 <= s -> s <= e -> e <= len l -> 0 <= k -> k <= e - s ->
  slice (slice l s e) 0 k = slice l s (s + k).
Proof.
  intros Hs Hse He Hk Hke.
  assert (Hlen : len (slice l s e) = e - s) by (apply slice_len; lia).
  unfold slice at 1. rewrite Hlen.
  unfold slice, clamp_index.
  repeat match goal with
         | |- context [?a <? 0] =>
             let E := fresh "E" in
             destruct (a <? 0) eqn:E;
             [apply Z.ltb_lt in E; lia | apply Z.ltb_ge in E]
         end.
  replace (Z.min 0 (e - s)) with 0 by lia.
  replace (Z.min k (e - s) - 0) with k by lia.
  replace (Z.min s (len l)) with s by lia.
  replace (Z.min e (len l)) with e by lia.
  replace (Z.min (s + k) (len l) - s) with k by lia.
  simpl skipn. rewrite firstn_firstn. f_equal. lia.
Qed.

Lemma piece_at_is_slice doc chunkSize s :
  0 <= s < len doc -> 0 < chunkSize ->
  piece_at doc chunkSize s = slice doc s (s + len (piece_at doc chunkSize s)).
Proof.
  intros Hs Hc. unfold piece_at. cbv zeta.
  set (e := Z.min (s + chunkSize) (len doc)).
  assert (He : s < e <= len doc) by (unfold e; lia).
  assert (Hp : len (slice doc s e) = e - s) by (apply slice_len; lia).
  destruct (e <? len doc).
  - set (bp := Z.max _ _).
    assert (Hbp : -1 <= bp < e - s).
    { pose proof (lastIndexOf_bounds (slice doc s e) 46%N).
      pose proof (lastIndexOf_bounds (slice doc s e) 10%N). unfold bp. lia. }
    destruct (above70 bp chunkSize).
    + rewrite (slice_len (slice doc s e) 0 (bp + 1)) by lia.
      replace (bp + 1 - 0) with (bp + 1) by lia.
      apply slice_slice_prefix; lia.
    + rewrite Hp. f_equal. lia.
  - rewrite Hp. f_equal. lia.
Qed.

(** X1: Every chunk carries its position in its id and its metadata, the
    source id it was cut for, no score, and the caller's metadata except
    under the three keys the chunker sets. *)
Theorem chunkText_labels_chunks :
  forall (doc : jsstring) (chunkSize overlap : Z) (sourceId : jsstring) (md : object)
         (fuel : nat),
    0 <= overlap < chunkSize ->
    (length doc <= fuel)%nat ->
    exists chunks,
      chunkText fuel doc chunkSize overlap sourceId md = Some chunks
      /\ forall i c, nth_error chunks i = Some c ->
           id c = sourceId ++ js "_chunk_" ++ decimal (Z.of_nat i)
           /\ source c = sourceId
           /\ score c = None
           /\ get_prop key_chunkIndex (metadata c) = JNum (Z.of_nat i)
           /\ forall k, k <> key_chunkIndex -> k <> key_start -> k <> key_end ->
                get_prop k (metadata c) = get_prop k md.
Proof.
  intros doc chunkSize overlap sourceId md fuel Hsize Hfuel.
  destruct (chunkText_chain doc chunkSize overlap sourceId md Hsize fuel Hfuel)
    as (cs & Hrun & _).
  eexists. split; [exact Hrun|].
  intros i c Hnth. apply chunks_from_nth in Hnth. destruct Hnth as (s & _ & ->).
  unfold chunk_at. cbn [id source score metadata]. rewrite Z.add_0_l.
  split; [reflexivity|]. split; [reflexivity|]. split; [reflexivity|]. split.
  - rewrite !get_set_other by reflexivity. apply get_set_same.
  - intros k H1 H2 H3.
    rewrite !get_set_other by (apply str_eqb_neq; assumption). reflexivity.
Qed.

Lemma chunkText_labels_chunks_witness :
  exists chunks,
    chunkText 14 sample_doc 6 2 (js "doc1") sample_metadata = Some chunks
    /\ forall i c, nth_error chunks i = Some c ->
         id c = js "doc1" ++ js "_chunk_" ++ decimal (Z.of_nat i)
         /\ source c = js "doc1"
         /\ score c = None
         /\ get_prop key_chunkIndex (metadata c) = JNum (Z.of_nat i)
         /\ forall k, k <> key_chunkIndex -> k <> key_start -> k <> key_end ->
              get_prop k (metadata c) = get_prop k sample_metadata.
Proof.
  refine (chunkText_labels_chunks sample_doc 6 2 (js "doc1") sample_metadata 14 _ _).
  - lia.
  - vm_compute. lia.
Defined.

(** X2: The span a chunk records lies inside the text, the first span starts
    at 0, the starts grow strictly from one chunk to the next, and the
    chunk's text is the text between the ends of its span, trimmed. *)
Theorem chunkText_spans :
  forall (doc : jsstring) (chunkSize overlap : Z) (sourceId : jsstring) (md : object)
         (fuel : nat),
    0 <= overlap < chunkSize ->
    (length doc <= fuel)%nat ->
    exists chunks,
      chunkText fuel doc chunkSize overlap sourceId md = Some chunks
      /\ forall i c, nth_error chunks i = Some c ->
           exists s e,
             chunk_span c = Some (s, e)
             /\ 0 <= s < len doc /\ s <= e <= len doc
             /\ (i = 0%nat -> s = 0)
             /\ text c = trim (slice doc s e)
             /\ forall c', nth_error chunks (S i) = Some c' ->
                  exists s' e', chunk_span c' = Some (s', e') /\ s < s'.
Proof.
  intros doc chunkSize overlap sourceId md fuel Hsize Hfuel.
  destruct (chunkText_chain doc chunkSize overlap sourceId md Hsize fuel Hfuel)
    as (cs & Hrun & Hchain & Hempty).
  eexists. split; [exact Hrun|].
  intros i c Hnth. apply chunks_from_nth in Hnth. destruct Hnth as (s & Hs & ->).
  assert (Hne : doc <> []).
  { intros ->. rewrite (Hempty eq_refl) in Hs. destruct i; discriminate. }
  specialize (Hchain Hne).
  destruct (cursor_chain_nth doc chunkSize overlap Hsize cs 0 i s Hchain Hs)
    as (Hr & H0 & Hnext).
  pose proof (piece_at_len_bounds doc chunkSize s Hr ltac:(lia)) as [Hb1 Hb2].
  exists s, (s + len (piece_at doc chunkSize s)).
  split; [apply chunk_at_span|]. split; [lia|]. split; [lia|]. split; [exact H0|].
  split.
  - change (text (chunk_at doc chunkSize sourceId md s (0 + Z.of_nat i)))
      with (trim (piece_at doc chunkSize s)).
    f_equal. apply piece_at_is_slice; lia.
  - intros c' Hnth'. apply chunks_from_nth in Hnth'. destruct Hnth' as (s' & Hs' & ->).
    exists s', (s' + len (piece_at doc chunkSize s')).
    split; [apply chunk_at_span|].
    rewrite (Hnext s' Hs').
    apply next_start_gt. lia.
Qed.

Lemma chunkText_spans_witness :
  exists chunks,
    chunkText 14 sample_doc 6 2 (js "doc1") sample_metadata = Some chunks
    /\ forall i c, nth_error chunks i = Some c ->
         exists s e,
           chunk_span c = Some (s, e)
           /\ 0 <= s < len sample_doc /\ s <= e <= len sample_doc
           /\ (i = 0%nat -> s = 0)
           /\ text c = trim (slice sample_doc s e)
           /\ forall c', nth_error chunks (S i) = Some c' ->
                exists s' e', chunk_span c' = Some (s', e') /\ s < s'.
Proof.
  refine (chunkText_spans sample_doc 6 2 (js "doc1") sample_metadata 14 _ _).
  - lia.
  - vm_compute. lia.
Defined.

(** X3: With the overlap at most 70% of the chunk size, a chunk whose window
    stops short of the end of the text is followed by a chunk that starts
    exactly [overlap] characters before the first one's end. *)
Theorem chunkText_consecutive_overlap :
  forall (doc : jsstring) (chunkSize overlap : Z) (sourceId : jsstring) (md : object)
         (fuel : nat),
    0 <= overlap < chunkSize ->
    10 * overlap <= 7 * chunkSize ->
    snap_ok chunkSize ->
    (length doc <= fuel)%nat ->
    exists chunks,
      chunkText fuel doc chunkSize overlap sourceId md = Some chunks
      /\ forall i c s e,
           nth_error chunks i = Some c ->
           chunk_span c = Some (s, e) ->
           s + chunkSize < len doc ->
           exists c' e',
             nth_error chunks (S i) = Some c'
             /\ chunk_span c' = Some (e - overlap, e').
Proof.
  intros doc chunkSize overlap sourceId md fuel Hsize Hov Hsnap Hfuel.
  destruct (chunkText_chain doc chunkSize overlap sourceId md Hsize fuel Hfuel)
    as (cs & Hrun & Hchain & Hempty).
  eexists. split; [exact Hrun|].
  intros i c s e Hnth Hspan Hinner.
  apply chunks_from_nth in Hnth. destruct Hnth as (s0 & Hs & ->).
  rewrite chunk_at_span in Hspan. injection Hspan as <- <-.
  assert (Hne : doc <> []).
  { intros ->. rewrite (Hempty eq_refl) in Hs. destruct i; discriminate. }
  specialize (Hchain Hne). clear Hempty Hrun.
  assert (Hn : overlap < len (piece_at doc chunkSize s0)).
  { destruct (cursor_chain_nth doc chunkSize overlap Hsize cs 0 i s0 Hchain Hs) as (Hr & _).
    destruct (piece_at_inner doc chunkSize s0) as [Hn | (bp & Hbp & Ha & Hn)]; try lia.
    specialize (Hsnap bp Hbp Ha). lia. }
  assert (Hnext : next_start chunkSize overlap s0 (len (piece_at doc chunkSize s0))
                  = s0 + len (piece_at doc chunkSize s0) - overlap).
  { unfold next_start.
    destruct (s0 + (len (piece_at doc chunkSize s0) - overlap) <=? s0) eqn:E.
    - apply Z.leb_le in E. lia.
    - lia. }
  (* the cursor after [s0] is still inside the text, so one more chunk follows *)
  assert (Hin : next_start chunkSize overlap s0 (len (piece_at doc chunkSize s0)) < len doc).
  { destruct (cursor_chain_nth doc chunkSize overlap Hsize cs 0 i s0 Hchain Hs) as (Hr & _).
    destruct (piece_at_len_bounds doc chunkSize s0 Hr ltac:(lia)) as [Hb _]. lia. }
  assert (Hsucc : nth_error cs (S i)
                  = Some (next_start chunkSize overlap s0 (len (piece_at doc chunkSize s0)))).
  { clear Hnext Hn. revert Hchain Hs Hin. generalize 0 at 1. revert i.
    induction cs as [|s1 cs IH]; intros i start Hchain Hs Hin.
    - destruct i; discriminate.
    - destruct Hchain as (-> & Hlt & Hrest). destruct i as [|i]; simpl in Hs.
      + injection Hs as <-. simpl. destruct cs as [|s2 cs'].
        * simpl in Hrest. lia.
        * destruct Hrest as (-> & _). reflexivity.
      + simpl. eapply IH; eauto. }
  exists (chunk_at doc chunkSize sourceId md
            (next_start chunkSize overlap s0 (len (piece_at doc chunkSize s0)))
            (0 + Z.of_nat (S i))).
  eexists. split.
  - clear Hnext Hn Hin Hchain Hs. revert Hsucc. generalize 0. generalize (S i).
    induction cs as [|s1 cs IH]; intros n idx Hn.
    + destruct n; discriminate.
    + destruct n as [|n]; simpl in *.
      * injection Hn as ->. f_equal. f_equal. lia.
      * rewrite (IH n (idx + 1) Hn). f_equal. f_equal. lia.
  - rewrite chunk_at_span. rewrite Hnext. reflexivity.
Qed.

Lemma chunkText_consecutive_overlap_witness :
  exists chunks,
    chunkText 14 sample_doc 6 2 (js "doc1") sample_metadata = Some chunks
    /\ forall i c s e,
         nth_error chunks i = Some c ->
         chunk_span c = Some (s, e) ->
         s + 6 < len sample_doc ->
         exists c' e',
           nth_error chunks (S i) = Some c'
           /\ chunk_span c' = Some (e - 2, e').
Proof.
  refine (chunkText_consecutive_overlap sample_doc 6 2 (js "doc1") sample_metadata 14
            _ _ _ _).
  - lia.
  - lia.
  - apply snap_ok_b_sound. vm_compute. reflexivity.
  - vm_compute. lia.
Defined.

(* ================================================================== *)
(** ** rankAndPickTop: what is ranked, and when the call throws *)

Lemma insert_by_perm {A} (cmp : A -> A -> float) (x : A) (l : list A) :
  Permutation (insert_by cmp x l) (x :: l).
Proof.
  induction l as [|y l IH]; simpl; [reflexivity|].
  destruct (PrimFloat.ltb 0 (cmp x y)); [|reflexivity].
  rewrite IH. apply perm_swap.
Qed.

Lemma sort_by_perm {A} (cmp : A -> A -> float) (l : list A) :
  Permutation (sort_by cmp l) l.
Proof.
  unfold sort_by. induction l as [|x l IH]; simpl; [reflexivity|].
  rewrite insert_by_perm. constructor. exact IH.
Qed.

Lemma slice_all {A} (l : list A) (k : Z) : len l <= k -> slice l 0 k = l.
Proof.
  intros Hk. unfold slice, clamp_index. pose proof (len_nonneg l) as Hn.
  destruct (k <? 0) eqn:E; [apply Z.ltb_lt in E; lia|].
  cbn [Z.ltb Z.compare]. replace (Z.min 0 (len l)) with 0 by lia.
  replace (Z.min k (len l) - 0) with (len l) by lia.
  simpl skipn. unfold len. rewrite Nat2Z.id. apply firstn_all.
Qed.

Section RankerMore.
Context {rt : Runtime}.

Lemma mapM_scored_clear chunks query extraKeywords scored :
  mapM (fun chunk => s <- scoreChunkByQuery chunk query extraKeywords ;;
                     Returns (with_score chunk s)) chunks = Returns scored ->
  map clear_score scored = map clear_score chunks.
Proof.
  revert scored. induction chunks as [|c chunks IH]; intros scored H; simpl in H.
  - injection H as <-. reflexivity.
  - destruct (scoreChunkByQuery c query extraKeywords) as [s|]; [|discriminate].
    simpl in H.
    destruct (mapM _ chunks) as [rest|]; [|discriminate]. simpl in H.
    injection H as <-. simpl. f_equal. apply IH. reflexivity.
Qed.

Lemma keyword_loop_returns_inv text kws :
  forall score s, keyword_loop text kws score = Returns s ->
    forall k, In k kws -> exists n, regexp_match_count k text = Returns n.
Proof.
  induction kws as [|k0 kws IH]; intros score s H k Hk; [destruct Hk|].
  simpl in H. destruct (regexp_match_count k0 text) as [n|] eqn:E; [|discriminate].
  simpl in H. destruct Hk as [<- | Hk]; [eauto|].
  eapply IH; eauto.
Qed.

Lemma scoreChunkByQuery_returns_inv chunk query extraKeywords s :
  scoreChunkByQuery chunk query extraKeywords = Returns s ->
  forall k, In k (allKeywords_of query extraKeywords) ->
            exists n, regexp_match_count k (toLowerCase (text chunk)) = Returns n.
Proof.
  unfold scoreChunkByQuery. intros H.
  destruct (keyword_loop _ _ _) as [s0|] eqn:E; [|discriminate].
  eapply keyword_loop_returns_inv. exact E.
Qed.

End RankerMore.

(** X5: When the call returns, every chunk of the input is in the ranking
    once, with a score: the result is the first [topK] chunks of a
    rearrangement of the input, and all of it when [topK] is at least the
    number of chunks. *)
Theorem rankAndPickTop_ranks_every_chunk :
  forall (rt : Runtime) (chunks : list TextChunk) (query : jsstring) (topK : Z)
         (extraKeywords : list jsstring) (out : list TextChunk),
    rankAndPickTop chunks query topK extraKeywords = Returns out ->
    exists ranked,
      Permutation (map clear_score ranked) (map clear_score chunks)
      /\ Forall (fun c => score c <> None) ranked
      /\ out = slice ranked 0 topK
      /\ (len chunks <= topK -> out = ranked).
Proof.
  intros rt chunks query topK extraKeywords out H.
  unfold rankAndPickTop in H.
  destruct (mapM _ chunks) as [scored|] eqn:Em; [|discriminate].
  simpl in H. injection H as <-.
  exists (sort_by compare_scores scored).
  split; [|split; [|split]].
  - rewrite <- (mapM_scored_clear _ _ _ _ Em).
    apply Permutation_map. apply sort_by_perm.
  - apply Forall_forall. intros c Hc. apply sort_by_In in Hc.
    destruct (mapM_In _ _ _ Em c Hc) as (c0 & _ & Hf).
    destruct (scoreChunkByQuery c0 query extraKeywords); [|discriminate].
    simpl in Hf. injection Hf as <-. discriminate.
  - reflexivity.
  - intros Hk. apply slice_all. apply mapM_length in Em.
    unfold len in *. rewrite sort_by_length, Em. exact Hk.
Qed.

Lemma rankAndPickTop_ranks_every_chunk_witness :
  exists ranked,
    Permutation (map clear_score ranked) (map clear_score ranked_sample)
    /\ Forall (fun c => score c <> None) ranked
    /\ ranked_sample_top = slice ranked 0 1
    /\ (len ranked_sample <= 1 -> ranked_sample_top = ranked).
Proof.
  refine (rankAndPickTop_ranks_every_chunk plain_runtime ranked_sample (js "warning") 1
            [js "safety"] ranked_sample_top _).
  vm_compute. reflexivity.
Defined.

(** X6: The call returns exactly when the pattern built from every keyword is
    accepted on every chunk; one refused keyword on one chunk makes the
    whole call throw. *)
Theorem rankAndPickTop_returns_iff :
  forall (rt : Runtime) (chunks : list TextChunk) (query : jsstring) (topK : Z)
         (extraKeywords : list jsstring),
    (exists out, rankAndPickTop chunks query topK extraKeywords = Returns out)
    <-> (forall chunk k,
           In chunk chunks -> In k (allKeywords_of query extraKeywords) ->
           exists n, regexp_match_count k (toLowerCase (text chunk)) = Returns n).
Proof.
  intros rt chunks query topK extraKeywords. split.
  - intros [out H] chunk k Hc Hk. unfold rankAndPickTop in H.
    destruct (mapM _ chunks) as [scored|] eqn:Em; [|discriminate].
    clear H. revert scored Em. induction chunks as [|c chunks IH]; intros scored Em.
    + destruct Hc.
    + simpl in Em.
      destruct (scoreChunkByQuery c query extraKeywords) as [s|] eqn:Es; [|discriminate].
      simpl in Em. destruct (mapM _ chunks) as [rest|] eqn:Er; [|discriminate].
      destruct Hc as [<- | Hc].
      * eapply scoreChunkByQuery_returns_inv; eauto.
      * eapply IH; eauto.
  - apply rankAndPickTop_returns.
Qed.

(* ================================================================== *)
(** ** extractCitations: order *)

Lemma pushes_subsequence (l : list Citation) :
  forall st, exists added,
    cs_citations (fold_left push_unseen l st) = cs_citations st ++ added
    /\ subsequence added l.
Proof.
  induction l as [|c l IH]; intros st; simpl.
  - exists []. rewrite app_nil_r. split; [reflexivity | constructor].
  - destruct (IH (push_unseen st c)) as (added & Hadd & Hsub).
    destruct (set_has (seenIds st) (cite_id c)) eqn:E.
    + rewrite push_unseen_seen in * by exact E.
      exists added. split; [exact Hadd | constructor; exact Hsub].
    + destruct (push_unseen_new st c E) as [Hc _]. rewrite Hc in Hadd.
      exists (c :: added). rewrite <- app_assoc in Hadd.
      split; [exact Hadd | constructor; exact Hsub].
Qed.

(** X10: The citations come in the order the walk over the chunks meets them,
    and the citations of a longer chunk list start with the citations of
    the shorter one. *)
Theorem extractCitations_keeps_order :
  forall chunks : list TextChunk,
    subsequence (extractCitations chunks) (candidates chunks)
    /\ forall later, exists more,
         extractCitations (chunks ++ later) = extractCitations chunks ++ more.
Proof.
  intros chunks. split.
  - unfold extractCitations. rewrite walk_pushes.
    destruct (pushes_subsequence (candidates chunks) (mkCiteState [] []))
      as (added & Hadd & Hsub).
    rewrite Hadd. exact Hsub.
  - intros later. unfold extractCitations. rewrite fold_left_app, (walk_pushes later).
    destruct (pushes_subsequence (candidates later)
                (fold_left cite_chunk chunks (mkCiteState [] [])))
      as (added & Hadd & _).
    exists added. exact Hadd.
Qed.

(* ================================================================== *)
(** ** extractLabelText *)

Lemma trimStart_keeps_non_space s :
  (exists c, In c s /\ is_space c = false) -> trimStart s <> [].
Proof.
  induction s as [|x s IH]; intros (c & Hin & Hc); [destruct Hin|].
  simpl. destruct (is_space x) eqn:E; [|discriminate].
  apply IH. destruct Hin as [-> | Hin]; [congruence | eauto].
Qed.

Lemma trim_keeps_non_space s :
  (exists c, In c s /\ is_space c = false) -> trim s <> [].
Proof.
  intros (c & Hin & Hc). unfold trim.
  assert (H1 : In c (trimStart s)).
  { clear - Hin Hc. induction s as [|x s IH]; [destruct Hin|].
    simpl. destruct (is_space x) eqn:E; [|exact Hin].
    destruct Hin as [-> | Hin]; [congruence | auto]. }
  assert (H2 : trimStart (rev (trimStart s)) <> []).
  { apply trimStart_keeps_non_space. exists c. split; [|exact Hc].
    apply in_rev. rewrite rev_involutive. exact H1. }
  intros H. apply H2. apply (f_equal (@rev jschar)) in H.
  rewrite rev_involutive in H. exact H.
Qed.

Lemma startsWith_app (prefix rest : jsstring) : startsWith (prefix ++ rest) prefix = true.
Proof.
  induction prefix as [|c prefix IH]; simpl.
  - destruct rest; reflexivity.
  - unfold char_eqb. rewrite N.eqb_refl. exact IH.
Qed.

Lemma js_Drug : js "Drug: " = [68; 114; 117; 103; 58; 32]%N.
Proof. vm_compute. reflexivity. Qed.

Lemma extractLabelText_opens :
  forall label : Label.t,
    startsWith (extractLabelText label) (js "Drug: ") = true
    /\ trim (extractLabelText label) <> [].
Proof.
  intros label. unfold extractLabelText. cbv zeta.
  change ([?a; ?b] ++ ?r) with (a :: b :: r).
  match goal with
  | |- context [join ?sep ((js "Drug: " ++ ?name) :: ?m :: ?rest)] =>
      generalize name; generalize m; generalize rest; generalize sep
  end.
  intros sep rest m name.
  assert (Hjoin : join sep ((js "Drug: " ++ name) :: m :: rest)
                  = js "Drug: " ++ (name ++ sep ++ join sep (m :: rest))).
  { cbn [join]. rewrite <- app_assoc. reflexivity. }
  rewrite Hjoin. split; [apply startsWith_app|].
  rewrite js_Drug.
  apply trim_keeps_non_space.
  exists 68%N. split; [left; reflexivity | reflexivity].
Qed.

(** X11: The text of a label is never blank: it always opens with the line
    [Drug: ...], so the orchestrator's test for an empty label text never
    skips a label. *)
Theorem extractLabelText_never_blank :
  forall label : Label.t,
    startsWith (extractLabelText label) (js "Drug: ") = true
    /\ trim (extractLabelText label) <> [].
Proof. exact extractLabelText_opens. Qed.


(* ================================================================== *)
(** ** aePipelineRag: the runs of the orchestrator *)

Section PipelineRuns.
Context {rt : Runtime}.

Lemma searchTerms_with_drug params :
  present (drug params) = true -> searchTerms_of params <> [].
Proof.
  intros H. unfold searchTerms_of. rewrite H. cbn [app]. discriminate.
Qed.

Lemma len_pos_cons {A} (x : A) (l : list A) : (0 <? len (x :: l)) = true.
Proof. apply Z.ltb_lt. unfold len. simpl length. lia. Qed.

(** The orchestrator up to its loop over the labels. *)
Lemma aePipelineRag_unfold params :
  aePipelineRag params =
  match searchTerms_of params with
  | [] => Done (Returns (respond (empty_bundle params prompt_for_input)))
  | _ =>
      Fetch (request_of params)
        (fun data =>
           match data with
           | Throws message => Done (rethrow (Throws message))
           | Returns data =>
               match results data with
               | None | Some [] =>
                   Done (Returns (respond (empty_bundle params no_match_message)))
               | Some labels => chunk_labels params labels []
               end
           end)
  end.
Proof.
  unfold aePipelineRag, request_of, limit_of, prompt_for_input, no_match_message.
  destruct (searchTerms_of params) as [|t ts] eqn:Et.
  - change (0 <? len (@nil jsstring)) with false. cbv iota.
    destruct (present (drug params)) eqn:Ed; [|reflexivity].
    exfalso. exact (searchTerms_with_drug params Ed Et).
  - rewrite len_pos_cons. reflexivity.
Qed.

Lemma chunk_label_returns label labelId :
  exists chunks,
    chunk_label label labelId = Some chunks
    /\ chunks <> []
    /\ Forall (fun c => len (text c) <= 1000 /\ source c = labelId /\ score c = None) chunks.
Proof.
  unfold chunk_label. cbv zeta.
  destruct (extractLabelText_opens label) as [_ Hblank].
  set (doc := extractLabelText label) in *.
  match goal with |- context [chunkText _ doc 1000 200 labelId ?m] => generalize m end.
  intros md.
  destruct (chunkText_chain doc 1000 200 labelId md ltac:(lia) (length doc) (le_n _))
    as (cs & Hrun & Hchain & _).
  rewrite Hrun. eexists. split; [reflexivity|].
  assert (Hne : doc <> []).
  { intros E. apply Hblank. rewrite E. reflexivity. }
  specialize (Hchain Hne). split.
  - destruct cs as [|s cs]; [|discriminate].
    simpl in Hchain. exfalso. apply Hne. apply len_nil_iff.
    pose proof (len_nonneg doc). lia.
  - apply Forall_forall. intros c Hc.
    apply In_nth_error in Hc. destruct Hc as [i Hi].
    apply chunks_from_nth in Hi. destruct Hi as (s & Hs & ->).
    destruct (cursor_chain_nth doc 1000 200 ltac:(lia) cs 0 i s Hchain Hs) as (Hr & _).
    pose proof (piece_at_len_bounds doc 1000 s Hr ltac:(lia)) as [Hb _].
    pose proof (trim_len_le (piece_at doc 1000 s)).
    change (text (chunk_at doc 1000 labelId md s (0 + Z.of_nat i)))
      with (trim (piece_at doc 1000 s)).
    split; [lia|]. split; reflexivity.
Qed.

Lemma go_ends fetch rand params pool labels label labelId drawn :
  (forall pool' drawn', ends_with_pool fetch rand params pool' drawn'
                          (chunk_labels params labels pool') false) ->
  ends_with_pool fetch rand params pool drawn
    (match chunk_label label labelId with
     | Some chunks => chunk_labels params labels (pool ++ chunks)
     | None => Diverge
     end) true.
Proof.
  intros IH.
  destruct (chunk_label_returns label labelId) as (chunks & Hc & Hne & Hall).
  rewrite Hc.
  destruct (IH (pool ++ chunks) drawn) as (more & Hrun & Hmore & _).
  exists (chunks ++ more). rewrite app_assoc. split; [exact Hrun|]. split.
  - apply Forall_app. split; [|exact Hmore].
    eapply Forall_impl; [|exact Hall]. intros c H. apply H.
  - intros _. destruct chunks; [congruence | discriminate].
Qed.

Lemma chunk_labels_cons params label labels pool :
  chunk_labels params (label :: labels) pool =
  match trim (extractLabelText label) with
  | [] => chunk_labels params labels pool
  | _ =>
      let go (labelId : jsstring) :=
        match chunk_label label labelId with
        | Some chunks => chunk_labels params labels (pool ++ chunks)
        | None => Diverge
        end in
      match Label.id label with
      | Some (c :: s) => go (c :: s)
      | _ =>
          match Label.first_of label Label.spl_id with
          | Some (c :: s) => go (c :: s)
          | _ => RandomId (fun suffix => go (js "label_" ++ suffix))
          end
      end
  end.
Proof. reflexivity. Qed.

Lemma not_blank_branch {A} (t : jsstring) (x y : A) :
  t <> [] -> match t with [] => x | _ :: _ => y end = y.
Proof. destruct t; [congruence | reflexivity]. Qed.

Lemma label_id_ends fetch rand params pool drawn (label : Label.t)
    (g : jsstring -> run (list ToolContent)) :
  (forall labelId drawn', ends_with_pool fetch rand params pool drawn' (g labelId) true) ->
  ends_with_pool fetch rand params pool drawn
    (match Label.id label with
     | Some (c :: s) => g (c :: s)
     | _ =>
         match Label.first_of label Label.spl_id with
         | Some (c :: s) => g (c :: s)
         | _ => RandomId (fun suffix => g (js "label_" ++ suffix))
         end
     end) true.
Proof.
  intros Hg.
  assert (Hrandom : ends_with_pool fetch rand params pool drawn
                      (RandomId (fun suffix => g (js "label_" ++ suffix))) true).
  { destruct (Hg (js "label_" ++ rand drawn) (S drawn)) as (more & H1 & H2).
    exists more. split; [exact H1 | exact H2]. }
  destruct (Label.id label) as [[|c s]|];
    [destruct (Label.first_of label Label.spl_id) as [[|c s]|] | |
     destruct (Label.first_of label Label.spl_id) as [[|c s]|]];
    first [exact Hrandom | apply Hg].
Qed.

(** The loop over the labels ends, asks nothing more of the collaborator,
    and hands [finish] the chunks of every label. *)
Lemma chunk_labels_run params fetch rand labels :
  forall pool drawn,
    ends_with_pool fetch rand params pool drawn (chunk_labels params labels pool)
      (match labels with [] => false | _ => true end).
Proof.
  induction labels as [|label labels IH]; intros pool drawn.
  - exists []. rewrite app_nil_r. split; [reflexivity|]. split; [constructor | discriminate].
  - rewrite chunk_labels_cons.
    rewrite not_blank_branch by apply extractLabelText_opens.
    cbv zeta. apply (label_id_ends fetch rand params pool drawn label
                       (fun labelId => match chunk_label label labelId with
                                       | Some chunks => chunk_labels params labels (pool ++ chunks)
                                       | None => Diverge
                                       end)).
    intros labelId drawn'. apply go_ends.
    intros pool' drawn''. destruct (IH pool' drawn'') as (more & H1 & H2 & _).
    exists more. split; [exact H1 | split; [exact H2 | discriminate]].
Qed.

(** A run of the orchestrator, case by case. *)
Lemma aePipelineRag_execute params fetch rand :
  execute fetch rand 0 (aePipelineRag params) =
  match searchTerms_of params with
  | [] => (Some (Returns (respond (empty_bundle params prompt_for_input))), [])
  | _ =>
      match fetch (request_of params) with
      | Throws message =>
          (Some (Throws (McpError InternalError (js "RAG pipeline failed: " ++ message))),
           [request_of params])
      | Returns data =>
          match results data with
          | None | Some [] =>
              (Some (Returns (respond (empty_bundle params no_match_message))),
               [request_of params])
          | Some labels =>
              (fst (execute fetch rand 0 (chunk_labels params labels [])),
               request_of params :: snd (execute fetch rand 0 (chunk_labels params labels [])))
          end
      end
  end.
Proof.
  rewrite aePipelineRag_unfold.
  destruct (searchTerms_of params) as [|t ts]; [reflexivity|].
  cbn [execute].
  destruct (fetch (request_of params)) as [data|message]; [|reflexivity].
  destruct (results data) as [[|l ls]|]; try reflexivity.
  destruct (execute fetch rand 0 (chunk_labels params (l :: ls) [])). reflexivity.
Qed.

End PipelineRuns.

Section PipelineOutcomes.
Context {rt : Runtime}.

Lemma keep_chunk (chunk : TextChunk) :
  len (text chunk) <= 1000 ->
  mkChunk (id chunk)
    (if 1200 <? len (text chunk) then slice (text chunk) 0 1200 ++ js "..." else text chunk)
    (source chunk) (metadata chunk) (score chunk) = chunk.
Proof.
  intros H. destruct (1200 <? len (text chunk)) eqn:E; [apply Z.ltb_lt in E; lia|].
  destruct chunk; reflexivity.
Qed.

Lemma keep_chunks (chunks : list TextChunk) :
  Forall (fun c => len (text c) <= 1000) chunks ->
  map (fun chunk =>
         mkChunk (id chunk)
           (if 1200 <? len (text chunk)
            then slice (text chunk) 0 1200 ++ js "..." else text chunk)
           (source chunk) (metadata chunk) (score chunk)) chunks = chunks.
Proof.
  induction 1 as [|c l Hc _ IH]; simpl; [reflexivity|].
  rewrite IH, keep_chunk by exact Hc. reflexivity.
Qed.

Lemma rankAndPickTop_from_pool pool query topK extraKeywords out :
  rankAndPickTop pool query topK extraKeywords = Returns out ->
  forall c, In c out ->
    exists c0 s, In c0 pool /\ c = with_score c0 s.
Proof.
  unfold rankAndPickTop. intros H c Hc.
  destruct (mapM _ pool) as [scored|] eqn:Em; [|discriminate].
  simpl in H. injection H as <-.
  apply slice_In in Hc. apply sort_by_In in Hc.
  destruct (mapM_In _ _ _ Em c Hc) as (c0 & Hc0 & Hf).
  destruct (scoreChunkByQuery c0 query extraKeywords) as [s|]; [|discriminate].
  simpl in Hf. injection Hf as <-. eauto.
Qed.

Lemma summarizeChunks_bound chunks options :
  chunks <> [] -> 3 <= maxLength_of options ->
  len (summarizeChunks chunks options) <= maxLength_of options.
Proof.
  intros Hne Hm. destruct chunks as [|c r]; [contradiction|].
  unfold summarizeChunks.
  match goal with |- len (if _ <? len ?s then _ else _) <= _ => generalize s end.
  intros summary. apply truncate_len. exact Hm.
Qed.

(** What [finish] returns. *)
Lemma finish_bundle params pool content :
  Forall (fun c => len (text c) <= 1000) pool ->
  finish params pool = Returns content ->
  exists b,
    bundle_of content = Some b
    /\ r_source b = js "openfda"
    /\ r_query b = query params /\ r_drug b = drug params
    /\ r_condition b = condition params
    /\ rankAndPickTop pool (queryText_of params) (top_k params) pipeline_extraKeywords
       = Returns (top_chunks b)
    /\ Forall (fun c => len (text c) <= 1000 /\ score c <> None) (top_chunks b)
    /\ (top_chunks b <> [] -> len (summary b) <= 1200)
    /\ citations b = extractCitations (top_chunks b).
Proof.
  intros Hpool H. unfold finish in H. fold (queryText_of params) in H.
  destruct (rankAndPickTop pool (queryText_of params) (top_k params) pipeline_extraKeywords)
    as [topChunks|] eqn:Er; [|discriminate].
  cbn [bind] in H. injection H as <-.
  assert (Htop : Forall (fun c => len (text c) <= 1000 /\ score c <> None) topChunks).
  { apply Forall_forall. intros c Hc.
    destruct (rankAndPickTop_from_pool _ _ _ _ _ Er c Hc) as (c0 & s & Hc0 & ->).
    rewrite Forall_forall in Hpool. split; [exact (Hpool c0 Hc0) | discriminate]. }
  rewrite keep_chunks by (eapply Forall_impl; [|exact Htop]; intros c Hc; apply Hc).
  eexists. split; [reflexivity|]. cbn [r_source r_query r_drug r_condition top_chunks
                                        summary citations].
  repeat (split; [reflexivity|]). split; [exact Htop|]. split; [|reflexivity].
  intros Hne.
  apply (summarizeChunks_bound topChunks
           {| opt_source := js "openfda"; opt_query := query params;
              opt_drug := drug params; opt_condition := condition params;
              opt_maxLength := Some 1200 |} Hne).
  cbn [maxLength_of opt_maxLength]. lia.
Qed.

End PipelineOutcomes.

(** X12: The orchestrator always ends, and it asks the fetch collaborator at
    most once: not at all when there is no search term, else with the
    terms joined by AND, the limit (50 when absent or 0) and no skip. *)
Theorem aePipelineRag_ends_after_one_request :
  forall (rt : Runtime) (params : AEPipelineRAGParams)
         (fetch : DrugLabelSearchParams -> completion OpenFDAResponse)
         (rand : nat -> jsstring),
    exists outcome requests,
      execute fetch rand 0 (aePipelineRag params) = (Some outcome, requests)
      /\ (searchTerms_of params = [] -> requests = [])
      /\ (searchTerms_of params <> [] -> requests = [request_of params]).
Proof.
  intros rt params fetch rand. rewrite aePipelineRag_execute.
  destruct (searchTerms_of params) as [|t ts] eqn:Et.
  - eexists _, _. split; [reflexivity|]. split; [reflexivity | congruence].
  - destruct (fetch (request_of params)) as [data|message].
    + destruct (results data) as [[|l ls]|].
      * eexists _, _. split; [reflexivity|]. split; [discriminate | reflexivity].
      * destruct (chunk_labels_run params fetch rand (l :: ls) [] 0%nat)
          as (more & Hrun & _).
        rewrite Hrun. cbn [fst snd].
        eexists _, _. split; [reflexivity|]. split; [discriminate | reflexivity].
      * eexists _, _. split; [reflexivity|]. split; [discriminate | reflexivity].
    + eexists _, _. split; [reflexivity|]. split; [discriminate | reflexivity].
Qed.

Lemma filter_short_words (l : list jsstring) :
  (forall w, In w l -> len w <= 2) -> filter (fun w => 2 <? len w) l = [].
Proof.
  induction l as [|w l IH]; intros H; simpl; [reflexivity|].
  destruct (2 <? len w) eqn:E.
  - apply Z.ltb_lt in E. specialize (H w (or_introl eq_refl)). lia.
  - apply IH. intros w' Hw'. apply H. right. exact Hw'.
Qed.

(** X13: A query whose words all have one or two characters counts as no
    criteria: without a drug and a condition the orchestrator returns the
    prompt-for-input bundle and sends no request. *)
Theorem aePipelineRag_short_query_words :
  forall (rt : Runtime) (params : AEPipelineRAGParams)
         (fetch : DrugLabelSearchParams -> completion OpenFDAResponse)
         (rand : nat -> jsstring),
    present (drug params) = false ->
    present (condition params) = false ->
    (forall w, In w (split_ws (or_str (query params) [])) -> len w <= 2) ->
    execute fetch rand 0 (aePipelineRag params)
    = (Some (Returns (respond (empty_bundle params prompt_for_input))), []).
Proof.
  intros rt params fetch rand Hd Hc Hq. rewrite aePipelineRag_execute.
  assert (Ht : searchTerms_of params = []).
  { unfold searchTerms_of. rewrite Hd, Hc. cbn [app].
    destruct (present (query params)); [|reflexivity].
    cbv zeta. rewrite (filter_short_words _ Hq). reflexivity. }
  rewrite Ht. reflexivity.
Qed.

Lemma aePipelineRag_short_query_words_witness :
  execute empty_fetch sample_rand 0 (aePipelineRag (rt := plain_runtime) short_query_params)
  = (Some (Returns (respond (empty_bundle short_query_params prompt_for_input))), []).
Proof.
  refine (aePipelineRag_short_query_words plain_runtime short_query_params
            empty_fetch sample_rand _ _ _).
  - reflexivity.
  - reflexivity.
  - intros w Hw. vm_compute in Hw.
    destruct Hw as [<- | [<- | [<- | []]]]; vm_compute; discriminate.
Defined.

(** The message of the error the orchestrator throws, written out. *)
Lemma McpError_RAG_pipeline_failed message :
  McpError InternalError (js "RAG pipeline failed: " ++ message)
  = js "MCP error -32603: RAG pipeline failed: " ++ message.
Proof. vm_compute. reflexivity. Qed.

(** X14: A failure of the fetch collaborator ends the run with an
    [McpError] of code [InternalError]; its message is the failure's
    message behind the words [MCP error -32603: RAG pipeline failed: ]; the
    request is not sent a second time. *)
Theorem aePipelineRag_fetch_failure :
  forall (rt : Runtime) (params : AEPipelineRAGParams)
         (fetch : DrugLabelSearchParams -> completion OpenFDAResponse)
         (rand : nat -> jsstring) (message : jsstring),
    searchTerms_of params <> [] ->
    fetch (request_of params) = Throws message ->
    execute fetch rand 0 (aePipelineRag params)
    = (Some (Throws (js "MCP error -32603: RAG pipeline failed: " ++ message)),
       [request_of params]).
Proof.
  intros rt params fetch rand message Ht Hf. rewrite aePipelineRag_execute, Hf.
  rewrite McpError_RAG_pipeline_failed.
  destruct (searchTerms_of params); [congruence | reflexivity].
Qed.

Lemma aePipelineRag_fetch_failure_witness :
  execute failing_fetch sample_rand 0 (aePipelineRag (rt := plain_runtime) sample_params)
  = (Some (Throws (js "MCP error -32603: RAG pipeline failed: "
                   ++ js "OpenFDA API error (500): down")),
     [request_of (rt := plain_runtime) sample_params]).
Proof.
  refine (aePipelineRag_fetch_failure plain_runtime sample_params failing_fetch sample_rand
            (js "OpenFDA API error (500): down") _ _).
  - vm_compute. discriminate.
  - reflexivity.
Defined.

(** X15: An answer without labels (no [results], or an empty array) ends the
    run with the no-match bundle: no chunks, no citations, one request. *)
Theorem aePipelineRag_no_documents :
  forall (rt : Runtime) (params : AEPipelineRAGParams)
         (fetch : DrugLabelSearchParams -> completion OpenFDAResponse)
         (rand : nat -> jsstring) (data : OpenFDAResponse),
    searchTerms_of params <> [] ->
    fetch (request_of params) = Returns data ->
    results data = None \/ results data = Some [] ->
    execute fetch rand 0 (aePipelineRag params)
    = (Some (Returns (respond (empty_bundle params no_match_message))),
       [request_of params]).
Proof.
  intros rt params fetch rand data Ht Hf Hr. rewrite aePipelineRag_execute, Hf.
  destruct (searchTerms_of params); [congruence|].
  destruct Hr as [-> | ->]; reflexivity.
Qed.

Lemma aePipelineRag_no_documents_witness :
  execute empty_fetch sample_rand 0 (aePipelineRag (rt := plain_runtime) sample_params)
  = (Some (Returns (respond (empty_bundle sample_params no_match_message))),
     [request_of (rt := plain_runtime) sample_params]).
Proof.
  refine (aePipelineRag_no_documents plain_runtime sample_params empty_fetch sample_rand
            (mkResponse (Some [])) _ _ _).
  - vm_compute. discriminate.
  - reflexivity.
  - right. reflexivity.
Defined.



(** X17: Every label the collaborator returns is chunked: with at least one
    label and [top_k >= 1], a returned bundle holds at least one chunk. *)
Theorem aePipelineRag_labels_give_chunks :
  forall (rt : Runtime) (params : AEPipelineRAGParams)
         (fetch : DrugLabelSearchParams -> completion OpenFDAResponse)
         (rand : nat -> jsstring) (label : Label.t) (labels : list Label.t)
         (content : list ToolContent) (requests : list DrugLabelSearchParams),
    searchTerms_of params <> [] ->
    fetch (request_of params) = Returns (mkResponse (Some (label :: labels))) ->
    1 <= top_k params ->
    execute fetch rand 0 (aePipelineRag params) = (Some (Returns content), requests) ->
    exists b, bundle_of content = Some b /\ top_chunks b <> [].
Proof.
  intros rt params fetch rand label labels content requests Ht Hf Hk H.
  rewrite aePipelineRag_execute, Hf in H.
  destruct (searchTerms_of params) as [|t ts]; [congruence|].
  cbn [results] in H.
  destruct (chunk_labels_run params fetch rand (label :: labels) [] 0%nat)
    as (more & Hrun & Hmore & Hne).
  rewrite Hrun in H. cbn [fst snd app] in H.
  destruct (finish params more) as [content'|] eqn:Ef; [|discriminate].
  cbn [rethrow] in H. injection H as <- _.
  destruct (finish_bundle params more content' Hmore Ef)
    as (b & Hb & _ & _ & _ & _ & Hrank & _).
  exists b. split; [exact Hb|].
  pose proof (rankAndPickTop_returned_length _ _ _ _ _ Hrank) as Hlen.
  specialize (Hne eq_refl).
  assert (Hpos : 0 < len more).
  { destruct more; [congruence|]. unfold len. simpl length. lia. }
  destruct (top_k params <? 0) eqn:E; [apply Z.ltb_lt in E; lia|].
  intros Hnil. rewrite Hnil in Hlen. change (len (@nil TextChunk)) with 0 in Hlen. lia.
Qed.

Lemma aePipelineRag_labels_give_chunks_witness :
  exists b, bundle_of sample_content = Some b /\ top_chunks b <> [].
Proof.
  refine (aePipelineRag_labels_give_chunks plain_runtime sample_params sample_fetch
            sample_rand sample_label [] sample_content
            [request_of (rt := plain_runtime) sample_params] _ _ _ _).
  - vm_compute. discriminate.
  - reflexivity.
  - vm_compute. discriminate.
  - vm_compute. reflexivity.
Defined.

(* ================================================================== *)
(** ** rankAndPickTop: the store and the values *)

Lemma insert_by_map {A B} (f : A -> B) (cmpA : A -> A -> float) (cmpB : B -> B -> float)
    (x : A) (l : list A) :
  (forall b, In b l -> cmpA x b = cmpB (f x) (f b)) ->
  map f (insert_by cmpA x l) = insert_by cmpB (f x) (map f l).
Proof.
  induction l as [|y l IH]; intros H; simpl; [reflexivity|].
  rewrite <- (H y (or_introl eq_refl)).
  destruct (PrimFloat.ltb 0 (cmpA x y)); simpl; [|reflexivity].
  rewrite IH; [reflexivity|]. intros b Hb. apply H. right. exact Hb.
Qed.

Lemma sort_by_map {A B} (f : A -> B) (cmpA : A -> A -> float) (cmpB : B -> B -> float)
    (l : list A) :
  (forall a b, In a l -> In b l -> cmpA a b = cmpB (f a) (f b)) ->
  map f (sort_by cmpA l) = sort_by cmpB (map f l).
Proof.
  unfold sort_by. induction l as [|x l IH]; intros H; simpl; [reflexivity|].
  rewrite (insert_by_map f cmpA cmpB).
  - rewrite IH; [reflexivity|]. intros a b Ha Hb. apply H; right; assumption.
  - intros b Hb. apply sort_by_In in Hb. apply H; [left; reflexivity | right; exact Hb].
Qed.

Lemma slice_map {A B} (f : A -> B) (l : list A) (from to : Z) :
  map f (slice l from to) = slice (map f l) from to.
Proof.
  unfold slice, len. rewrite length_map.
  rewrite <- firstn_map, <- skipn_map. reflexivity.
Qed.

Module StoreValues.
Import Store.

Lemma read_chunks_known st l :
  (forall a, In a l -> exists c, read_chunk st a = Some c) ->
  read_chunks st l = map (chunk_or_blank st) l.
Proof.
  induction l as [|a l IH]; intros H; simpl; [reflexivity|].
  unfold chunk_or_blank at 1.
  destruct (H a (or_introl eq_refl)) as [c ->]. simpl.
  f_equal. apply IH. intros b Hb. apply H. right. exact Hb.
Qed.

Lemma read_chunks_ext st st' l :
  (forall a, In a l -> read_chunk st' a = read_chunk st a) ->
  read_chunks st' l = read_chunks st l.
Proof.
  induction l as [|a l IH]; intros H; simpl; [reflexivity|].
  rewrite (H a (or_introl eq_refl)). f_equal. apply IH.
  intros b Hb. apply H. right. exact Hb.
Qed.

Lemma read_fresh pre scored post :
  forall i c, nth_error scored i = Some c ->
    read_chunk (pre ++ map ChunkObj scored ++ post) (length pre + i)%nat = Some c.
Proof.
  intros i c H. unfold read_chunk.
  rewrite nth_error_app2 by lia.
  replace (length pre + i - length pre)%nat with i by lia.
  rewrite nth_error_app1 by (rewrite length_map; apply nth_error_Some; congruence).
  rewrite nth_error_map, H. reflexivity.
Qed.

Lemma read_chunks_fresh pre scored post :
  read_chunks (pre ++ map ChunkObj scored ++ post) (seq (length pre) (length scored))
  = scored.
Proof.
  assert (H : forall k rest,
             (forall i c, nth_error rest i = Some c ->
                          read_chunk (pre ++ map ChunkObj scored ++ post) (k + i)%nat = Some c) ->
             read_chunks (pre ++ map ChunkObj scored ++ post) (seq k (length rest)) = rest).
  { intros k rest. revert k. induction rest as [|c rest IH]; intros k Hr; simpl; [reflexivity|].
    specialize (Hr 0%nat c eq_refl) as H0. rewrite Nat.add_0_r in H0. rewrite H0. simpl.
    f_equal. apply IH. intros i c' Hi.
    replace (S k + i)%nat with (k + S i)%nat by lia. apply Hr. exact Hi. }
  apply H. intros i c Hi. apply read_fresh. exact Hi.
Qed.

Section WithRuntime.
Context {rt : Runtime}.

Lemma map_scored_agrees elems query extraKeywords :
  forall st st' r,
    (forall a, In a elems -> exists c, read_chunk st a = Some c) ->
    map_scored st elems query extraKeywords = (st', r) ->
    match mapM (fun chunk => s <- scoreChunkByQuery chunk query extraKeywords ;;
                             Returns (with_score chunk s)) (read_chunks st elems) with
    | Returns scored =>
        st' = st ++ map ChunkObj scored
        /\ r = Returns (seq (length st) (length scored))
    | Throws e => r = Throws e
    end.
Proof.
  induction elems as [|a elems IH]; intros st st' r Hobj H; simpl in H.
  - injection H as <- <-. simpl. rewrite app_nil_r. split; reflexivity.
  - destruct (Hobj a (or_introl eq_refl)) as [chunk Hc]. rewrite Hc in H.
    simpl read_chunks. rewrite Hc. cbn [app mapM].
    destruct (scoreChunkByQuery chunk query extraKeywords) as [s|e].
    2:{ injection H as <- <-. reflexivity. }
    cbn [bind]. unfold alloc in H.
    destruct (map_scored (st ++ [ChunkObj (with_score chunk s)]) elems query extraKeywords)
      as [st1 r1] eqn:Erec.
    injection H as <- <-.
    assert (Hobj1 : forall b, In b elems ->
              exists c, read_chunk (st ++ [ChunkObj (with_score chunk s)]) b = Some c).
    { intros b Hb. destruct (Hobj b (or_intror Hb)) as [c Hrc]. exists c.
      rewrite StoreFacts.read_chunk_app; [exact Hrc|].
      unfold read_chunk in Hrc. destruct (nth_error st b) eqn:E; [|discriminate].
      apply nth_error_Some. congruence. }
    specialize (IH _ _ _ Hobj1 Erec).
    assert (Hsame : read_chunks (st ++ [ChunkObj (with_score chunk s)]) elems
                    = read_chunks st elems).
    { apply read_chunks_ext. intros b Hb. apply StoreFacts.read_chunk_app.
      destruct (Hobj b (or_intror Hb)) as [c Hrc].
      unfold read_chunk in Hrc. destruct (nth_error st b) eqn:E; [|discriminate].
      apply nth_error_Some. congruence. }
    rewrite Hsame in IH.
    destruct (mapM _ (read_chunks st elems)) as [scored|e].
    + destruct IH as [-> ->]. cbn [bind]. split.
      * rewrite <- app_assoc. reflexivity.
      * rewrite length_app. simpl. replace (length st + 1)%nat with (S (length st)) by lia.
        reflexivity.
    + rewrite IH. reflexivity.
Qed.

End WithRuntime.
End StoreValues.

(** X7: The call on the store computes what the call on the values computes:
    it throws when scoring throws, with the same error, and otherwise the
    array it returns names, in order, the chunks of the ranking. *)
Theorem store_rankAndPickTop_agrees :
  forall (rt : Runtime) (st : Store.store) (chunks : Store.addr) (query : jsstring)
         (topK : Z) (extraKeywords : list jsstring)
         (elems : list Store.addr) (st' : Store.store) (r : completion Store.addr),
    Store.read_array st chunks = Some elems ->
    (forall a, In a elems -> exists c, Store.read_chunk st a = Some c) ->
    Store.rankAndPickTop st chunks query topK extraKeywords = (st', r) ->
    match rankAndPickTop (read_chunks st elems) query topK extraKeywords with
    | Returns out =>
        exists result addrs,
          r = Returns result
          /\ Store.read_array st' result = Some addrs
          /\ read_chunks st' addrs = out
    | Throws e => r = Throws e
    end.
Proof.
  intros rt st chunks query topK extraKeywords elems st' r Harr Hobj H.
  unfold Store.rankAndPickTop in H. rewrite Harr in H.
  destruct (Store.map_scored st elems query extraKeywords) as [st1 r1] eqn:Em.
  pose proof (StoreValues.map_scored_agrees elems query extraKeywords st st1 r1 Hobj Em)
    as Hmap.
  unfold rankAndPickTop.
  destruct (mapM _ (read_chunks st elems)) as [scored|e].
  2:{ rewrite Hmap in H. injection H as _ <-. reflexivity. }
  destruct Hmap as [-> ->]. cbn [bind]. unfold Store.alloc in H.
  set (fresh := seq (length st) (length scored)) in *.
  set (st2 := (st ++ map Store.ChunkObj scored) ++ [Store.ArrayObj fresh]) in *.
  set (sorted := sort_by (Store.compare_at st2) fresh) in *.
  set (here := length (st ++ map Store.ChunkObj scored)) in *.
  set (st3 := Store.write st2 here (Store.ArrayObj sorted)) in *.
  assert (Hlen2 : length st2 = S here).
  { unfold st2, here. rewrite !length_app. simpl. lia. }
  assert (Hread : Store.read_array st3 here = Some sorted).
  { unfold Store.read_array, st3. rewrite StoreFacts.write_same; [reflexivity | lia]. }
  rewrite Hread in H. injection H as <- <-.
  (* what the fresh addresses name, in every later store *)
  assert (Hfresh2 : read_chunks st2 fresh = scored).
  { unfold st2, fresh. rewrite <- app_assoc. apply StoreValues.read_chunks_fresh. }
  assert (Hin_fresh : forall a, In a fresh -> (a < here)%nat).
  { intros a Ha. unfold fresh in Ha. apply in_seq in Ha.
    unfold here. rewrite length_app, length_map. lia. }
  assert (Hknown2 : forall a, In a fresh -> exists c, Store.read_chunk st2 a = Some c).
  { intros a Ha. unfold fresh in Ha. apply in_seq in Ha.
    destruct (nth_error scored (a - length st)) as [c|] eqn:En.
    - exists c. unfold st2. rewrite <- app_assoc.
      replace a with (length st + (a - length st))%nat by lia.
      apply StoreValues.read_fresh. exact En.
    - apply nth_error_None in En. lia. }
  assert (Hlater : forall a, In a fresh ->
            Store.read_chunk (st3 ++ [Store.ArrayObj (slice sorted 0 topK)]) a
            = Store.read_chunk st2 a).
  { intros a Ha. specialize (Hin_fresh a Ha). unfold Store.read_chunk.
    rewrite nth_error_app1 by (unfold st3; rewrite StoreFacts.write_length; lia).
    unfold st3. rewrite StoreFacts.write_other by lia. reflexivity. }
  exists (length st3), (slice sorted 0 topK).
  split; [reflexivity|]. split.
  { unfold Store.read_array. rewrite nth_error_app2 by lia.
    rewrite Nat.sub_diag. reflexivity. }
  assert (Hsub : forall a, In a (slice sorted 0 topK) -> In a fresh).
  { intros a Ha. apply slice_In in Ha. apply sort_by_In in Ha. exact Ha. }
  rewrite (StoreValues.read_chunks_ext st2) by (intros a Ha; apply Hlater, Hsub, Ha).
  rewrite StoreValues.read_chunks_known by (intros a Ha; apply Hknown2, Hsub, Ha).
  rewrite slice_map. f_equal.
  unfold sorted.
  rewrite (sort_by_map (chunk_or_blank st2) (Store.compare_at st2) compare_scores).
  - rewrite <- StoreValues.read_chunks_known by exact Hknown2.
    rewrite Hfresh2. reflexivity.
  - intros a b Ha Hb. unfold Store.compare_at, compare_scores, Store.score_at, chunk_or_blank.
    destruct (Hknown2 a Ha) as [ca ->]. destruct (Hknown2 b Hb) as [cb ->]. reflexivity.
Qed.

Lemma store_rankAndPickTop_agrees_witness :
  match rankAndPickTop (rt := plain_runtime) (read_chunks sample_store [0%nat; 1%nat])
          (js "warning") 1 [] with
  | Returns out =>
      exists result addrs,
        snd sample_run = Returns result
        /\ Store.read_array (fst sample_run) result = Some addrs
        /\ read_chunks (fst sample_run) addrs = out
  | Throws e => snd sample_run = Throws e
  end.
Proof.
  refine (store_rankAndPickTop_agrees plain_runtime sample_store 2%nat (js "warning") 1 []
            [0%nat; 1%nat] (fst sample_run) (snd sample_run) _ _ _).
  - vm_compute. reflexivity.
  - intros a [<- | [<- | []]]; eexists; vm_compute; reflexivity.
  - apply surjective_pairing.
Defined.

(* ================================================================== *)
(** ** scoreChunkByQuery on an empty text *)

Lemma keyword_loop_no_hits {rt : Runtime} text kws :
  (forall k, In k kws -> regexp_match_count k text = Returns 0%nat) ->
  forall score, keyword_loop text kws score = Returns score.
Proof.
  induction kws as [|k kws IH]; intros H score; simpl; [reflexivity|].
  rewrite (H k (or_introl eq_refl)). cbn [bind Nat.ltb Nat.leb].
  apply IH. intros k' Hk'. apply H. right. exact Hk'.
Qed.

(** X8: A chunk whose text is empty scores NaN (the division 0 / sqrt 0), not a
    number; the comparator of the ranker reads that score as 0. *)
Theorem scoreChunkByQuery_empty_text_is_nan :
  forall (rt : Runtime) (chunk : TextChunk) (query : jsstring)
         (extraKeywords : list jsstring),
    toLowerCase (text chunk) = [] ->
    (forall k, In k (allKeywords_of query extraKeywords) ->
               regexp_match_count k [] = Returns 0%nat) ->
    scoreChunkByQuery chunk query extraKeywords = Returns nan
    /\ or_zero (Some nan) = 0%float.
Proof.
  intros rt chunk query extraKeywords Htext Hk.
  split; [|vm_compute; reflexivity].
  unfold scoreChunkByQuery. rewrite Htext.
  rewrite (keyword_loop_no_hits [] _ Hk). cbn [bind].
  destruct (toLowerCase query) as [|c q]; vm_compute; reflexivity.
Qed.

Lemma scoreChunkByQuery_empty_text_is_nan_witness :
  scoreChunkByQuery (rt := plain_runtime) blank_chunk (js "bleeding risk") [js "safety"]
    = Returns nan
  /\ or_zero (Some nan) = 0%float.
Proof.
  refine (scoreChunkByQuery_empty_text_is_nan plain_runtime blank_chunk
            (js "bleeding risk") [js "safety"] _ _).
  - reflexivity.
  - intros k Hk. vm_compute in Hk.
    destruct Hk as [<- | [<- | [<- | []]]]; vm_compute; reflexivity.
Defined.

(* ================================================================== *)
(** ** chunkText: the last chunk *)

Lemma cursor_chain_last doc chunkSize overlap :
  0 < chunkSize ->
  forall cs start,
    cursor_chain doc chunkSize overlap start cs ->
    cs <> [] ->
    exists s,
      nth_error cs (length cs - 1) = Some s
      /\ start <= s < len doc
      /\ len doc <= next_start chunkSize overlap s (len (piece_at doc chunkSize s)).
Proof.
  intros Hc. induction cs as [|s0 cs IH]; intros start Hchain Hne; [congruence|].
  destruct Hchain as (-> & Hlt & Hrest).
  destruct cs as [|s1 cs'].
  - exists start. simpl in Hrest. simpl. split; [reflexivity|]. split; [lia | exact Hrest].
  - destruct (IH _ Hrest ltac:(discriminate)) as (s & Hs & Hr & Hnext).
    pose proof (next_start_gt chunkSize overlap start
                  (len (piece_at doc chunkSize start)) Hc) as Hgt.
    exists s. split; [|split; [lia | exact Hnext]].
    simpl length in *.
    replace (S (S (length cs')) - 1)%nat with (S (length cs')) by lia.
    replace (S (length cs') - 1)%nat with (length cs') in Hs by lia.
    exact Hs.
Qed.

Lemma chunks_from_length doc chunkSize sourceId md cs :
  forall idx, length (chunks_from doc chunkSize sourceId md idx cs) = length cs.
Proof. induction cs as [|s cs IH]; intros idx; simpl; [reflexivity | rewrite IH; reflexivity]. Qed.

Lemma chunks_from_nth_at doc chunkSize sourceId md cs :
  forall idx i s,
    nth_error cs i = Some s ->
    nth_error (chunks_from doc chunkSize sourceId md idx cs) i
    = Some (chunk_at doc chunkSize sourceId md s (idx + Z.of_nat i)).
Proof.
  induction cs as [|s0 cs IH]; intros idx i s H.
  - destruct i; discriminate.
  - destruct i as [|i]; simpl in *.
    + injection H as <-. do 2 f_equal. lia.
    + rewrite (IH (idx + 1) i s H). do 2 f_equal. lia.
Qed.

(** X4: With a positive overlap the last chunk of a text never spans more than
    [overlap] characters, and it ends where the text ends: after the window
    that reaches the end the cursor steps back by the overlap and one more,
    short chunk is cut. *)
Theorem chunkText_last_chunk_is_short :
  forall (doc : jsstring) (chunkSize overlap : Z) (sourceId : jsstring) (md : object)
         (fuel : nat),
    0 < overlap < chunkSize ->
    doc <> [] ->
    (length doc <= fuel)%nat ->
    exists chunks c s,
      chunkText fuel doc chunkSize overlap sourceId md = Some chunks
      /\ last_chunk chunks = Some c
      /\ chunk_span c = Some (s, len doc)
      /\ len doc - s <= overlap.
Proof.
  intros doc chunkSize overlap sourceId md fuel Hsize Hne Hfuel.
  destruct (chunkText_chain doc chunkSize overlap sourceId md ltac:(lia) fuel Hfuel)
    as (cs & Hrun & Hchain & _).
  specialize (Hchain Hne).
  assert (Hcs : cs <> []).
  { intros ->. simpl in Hchain. apply Hne. apply len_nil_iff.
    pose proof (len_nonneg doc). lia. }
  destruct (cursor_chain_last doc chunkSize overlap ltac:(lia) cs 0 Hchain Hcs)
    as (s & Hs & Hr & Hnext).
  pose proof (piece_at_len_bounds doc chunkSize s ltac:(lia) ltac:(lia)) as [Hb1 Hb2].
  assert (Hend : len doc <= s + chunkSize /\ len doc - s <= overlap).
  { unfold next_start in Hnext.
    destruct (s + (len (piece_at doc chunkSize s) - overlap) <=? s) eqn:E.
    - apply Z.leb_le in E. split; [lia|].
      rewrite (piece_at_reaching_end doc chunkSize s) in E by lia. lia.
    - apply Z.leb_gt in E. lia. }
  destruct Hend as [Hreach Hshort].
  exists (chunks_from doc chunkSize sourceId md 0 cs),
         (chunk_at doc chunkSize sourceId md s (0 + Z.of_nat (length cs - 1))), s.
  split; [exact Hrun|]. split.
  - unfold last_chunk. rewrite chunks_from_length.
    apply chunks_from_nth_at. exact Hs.
  - rewrite chunk_at_span.
    rewrite (piece_at_reaching_end doc chunkSize s) by lia.
    split; [f_equal; f_equal; lia | exact Hshort].
Qed.

Lemma chunkText_last_chunk_is_short_witness :
  exists chunks c s,
    chunkText 14 sample_doc 6 2 (js "doc1") sample_metadata = Some chunks
    /\ last_chunk chunks = Some c
    /\ chunk_span c = Some (s, len sample_doc)
    /\ len sample_doc - s <= 2.
Proof.
  refine (chunkText_last_chunk_is_short sample_doc 6 2 (js "doc1") sample_metadata 14
            _ _ _).
  - lia.
  - vm_compute. discriminate.
  - vm_compute. lia.
Defined.

(* ================================================================== *)
(** ** summarizeChunks with a maxLength below 3 *)

Lemma len_app_ge {A} (a b : list A) : len a <= len (a ++ b).
Proof. rewrite len_app. pose proof (len_nonneg b). lia. Qed.

Ltac head_of_summary :=
  repeat match goal with
         | |- _ <= len (_ ++ _) => etransitivity; [|apply len_app_ge]
         end.

Section SummaryHeads.
Context {rt : Runtime}.

Lemma generateClinicalTrialsSummary_head chunks ctx :
  3 <= len (generateClinicalTrialsSummary chunks ctx).
Proof.
  unfold generateClinicalTrialsSummary. cbv zeta.
  destruct (fold_left _ chunks ([], [], false)) as [[adverseEvents studyIds] control].
  head_of_summary. vm_compute. discriminate.
Qed.

Lemma generateOpenFDASummary_head chunks ctx :
  3 <= len (generateOpenFDASummary chunks ctx).
Proof.
  unfold generateOpenFDASummary. cbv zeta.
  head_of_summary. vm_compute. discriminate.
Qed.

Lemma generateRxNavSummary_head chunks ctx :
  3 <= len (generateRxNavSummary chunks ctx).
Proof.
  unfold generateRxNavSummary. cbv zeta.
  destruct (fold_left _ chunks ([], [])) as [rxcuis atcCodes].
  head_of_summary. vm_compute. discriminate.
Qed.

Lemma generateGenericSummary_head chunks ctx :
  3 <= len (generateGenericSummary chunks ctx).
Proof.
  unfold generateGenericSummary. cbv zeta.
  head_of_summary. vm_compute. discriminate.
Qed.

End SummaryHeads.

Lemma cut_below_three (summary : jsstring) (m : Z) :
  m < 3 -> 3 <= len summary ->
  3 <= len (if m <? len summary then slice summary 0 (m - 3) ++ js "..." else summary).
Proof.
  intros Hm Hs. destruct (m <? len summary) eqn:E.
  - rewrite len_app, len_ellipsis.
    pose proof (len_nonneg (slice summary 0 (m - 3))). lia.
  - exact Hs.
Qed.

(** X9: With a [maxLength] below 3 the length control cannot keep its bound:
    for a non-empty list the result has at least 3 characters, more than
    [maxLength]. *)
Theorem summarizeChunks_tiny_maxLength :
  forall (rt : Runtime) (chunks : list TextChunk) (options : SummaryOptions),
    chunks <> [] ->
    maxLength_of options < 3 ->
    maxLength_of options < 3 <= len (summarizeChunks chunks options).
Proof.
  intros rt chunks options Hne Hm. split; [exact Hm|].
  destruct chunks as [|c r]; [contradiction|].
  unfold summarizeChunks. fold (maxLength_of options).
  match goal with
  | |- 3 <= len (if _ <? len ?s then _ else _) =>
      assert (Hs : 3 <= len s); [|revert Hs; generalize s]
  end.
  - destruct (str_eqb (opt_source options) (js "clinicaltrials"));
      [apply generateClinicalTrialsSummary_head|].
    destruct (str_eqb (opt_source options) (js "openfda"));
      [apply generateOpenFDASummary_head|].
    destruct (str_eqb (opt_source options) (js "rxnav"));
      [apply generateRxNavSummary_head | apply generateGenericSummary_head].
  - intros summary Hs. apply cut_below_three; assumption.
Qed.

Lemma summarizeChunks_tiny_maxLength_witness :
  maxLength_of tiny_options < 3
    <= len (summarizeChunks (rt := plain_runtime) [sample_chunk] tiny_options).
Proof.
  refine (summarizeChunks_tiny_maxLength plain_runtime [sample_chunk] tiny_options _ _).
  - discriminate.
  - vm_compute. reflexivity.
Defined.
